(** * google-calendar-rich: the title enricher, the colour policy and the
      last-edited-event resolver of [apps-script.js]

    A shallow embedding of the Apps Script code and the properties of its
    tag scanning, emoji substitution, event typing, colouring and event
    resolution.

    JavaScript strings are sequences of UTF-16 code units: a title is a
    [list N], and the regular expression [/:[a-z$]+:/g] (no [u] flag) and
    [String.prototype.replaceAll] work on code units. *)

From Stdlib Require Import String Ascii List NArith ZArith Bool Lia.
Import ListNotations.

(** ** JavaScript strings *)

Module JS.

Definition jsstring := list N.

(** An ASCII literal as code units. *)
Definition u16 (s : string) : jsstring :=
  map N_of_ascii (list_ascii_of_string s).

Fixpoint eqb (a b : jsstring) : bool :=
  match a, b with
  | [], [] => true
  | x :: a', y :: b' => N.eqb x y && eqb a' b'
  | _, _ => false
  end.

(** [s.startsWith(t)]. *)
Fixpoint startsWith (s t : jsstring) {struct t} : bool :=
  match t, s with
  | [], _ => true
  | x :: t', y :: s' => N.eqb x y && startsWith s' t'
  | _ :: _, [] => false
  end.

(** [s.includes(t)]. *)
Fixpoint includes (s t : jsstring) : bool :=
  startsWith s t ||
  match s with
  | [] => false
  | _ :: s' => includes s' t
  end.

(** [s.replaceAll(t, e)] for a search value that is not a regular
    expression and a replacement [e] without [$] patterns: the occurrences
    of [t] are searched from the left, the search resuming [max 1 |t|] code
    units after the start of the previous occurrence.  [skip] counts the
    code units of the current occurrence that are still to be passed. *)
Fixpoint replaceAll_from (skip : nat) (s t e : jsstring) : jsstring :=
  match s with
  | [] => []
  | c :: s' =>
      match skip with
      | S k => replaceAll_from k s' t e
      | O =>
          if startsWith s t
          then e ++ replaceAll_from (length t - 1) s' t e
          else c :: replaceAll_from 0 s' t e
      end
  end.

Definition replaceAll (s t e : jsstring) : jsstring :=
  match t with
  | [] => e ++ flat_map (fun c => c :: e) s
  | _ :: _ => replaceAll_from 0 s t e
  end.

(** JavaScript truthiness of a value that is [null] or a string. *)
Definition truthy (v : option string) : bool :=
  match v with
  | None => false
  | Some EmptyString => false
  | Some (String _ _) => true
  end.

End JS.

Import JS.

(** ** The scan [origTitle.matchAll(/:[a-z$]+:/g)] *)

Definition colon : N := 58.

Definition is_colon (c : N) : bool := N.eqb c colon.

(** The class [[a-z$]]. *)
Definition isTagChar (c : N) : bool :=
  (N.leb 97 c && N.leb c 122) || N.eqb c 36.

Fixpoint takeWhile (p : N -> bool) (s : jsstring) : jsstring :=
  match s with
  | [] => []
  | c :: s' => if p c then c :: takeWhile p s' else []
  end.

Fixpoint dropWhile (p : N -> bool) (s : jsstring) : jsstring :=
  match s with
  | [] => []
  | c :: s' => if p c then dropWhile p s' else s
  end.

(** The match of [:[a-z$]+:] anchored at the start of [s]: a colon, the
    greedy run of class characters, a colon.  Backtracking to a shorter run
    cannot succeed, the next code unit being of the class and not a
    colon. *)
Definition matchAt (s : jsstring) : option jsstring :=
  match s with
  | c :: rest =>
      if is_colon c then
        match takeWhile isTagChar rest, dropWhile isTagChar rest with
        | (_ :: _) as run, c' :: _ =>
            if is_colon c' then Some (colon :: run ++ [colon]) else None
        | _, _ => None
        end
      else None
  | [] => None
  end.

(** The global scan: the leftmost match from [lastIndex], then again from
    the end of that match.  [skip] counts the code units of the current
    match that are still to be passed. *)
Fixpoint matchAll_from (skip : nat) (s : jsstring) : list jsstring :=
  match s with
  | [] => []
  | _ :: s' =>
      match skip with
      | S k => matchAll_from k s'
      | O =>
          match matchAt s with
          | Some token => token :: matchAll_from (length token - 1) s'
          | None => matchAll_from 0 s'
          end
      end
  end.

Definition matchAll (s : jsstring) : list jsstring := matchAll_from 0 s.

(** ** The table [titleEnrichmentsAndTypes] *)

Record TagData := { emoji : jsstring; eventType : option string }.

Definition man_running : jsstring := [55356; 57283; 8205; 9794; 65039]%N.
Definition man_biking : jsstring := [55357; 57012; 8205; 9794; 65039]%N.
Definition party_popper : jsstring := [55356; 57225]%N.
Definition poultry_leg : jsstring := [55356; 57175]%N.
Definition hospital : jsstring := [55356; 57317]%N.
Definition flexed_biceps : jsstring := [55357; 56490]%N.
Definition star : jsstring := [11088]%N.
Definition check_mark : jsstring := [9989]%N.
Definition flag_italy : jsstring := [55356; 56814; 55356; 56825]%N.
Definition latin_cross : jsstring := [10013; 65039]%N.
Definition money_bag : jsstring := [55357; 56496]%N.

Definition entry (tag : string) (e : jsstring) (ty : option string)
  : jsstring * TagData :=
  (u16 tag, {| emoji := e; eventType := ty |}).

Definition titleEnrichmentsAndTypes : list (jsstring * TagData) :=
  [ entry ":run:" man_running (Some "RUN");
    entry ":bike:" man_biking (Some "BIKE");
    entry ":birthday:" party_popper (Some "BIRTHDAY");
    entry ":birth:" party_popper (Some "BIRTHDAY");
    entry ":compleanno:" party_popper (Some "BIRTHDAY");
    entry ":comple:" party_popper (Some "BIRTHDAY");
    entry ":dinner:" poultry_leg (Some "DINNER");
    entry ":lunch:" poultry_leg (Some "DINNER");
    entry ":cena:" poultry_leg (Some "DINNER");
    entry ":pranzo:" poultry_leg (Some "DINNER");
    entry ":hospital:" hospital (Some "HEALTH");
    entry ":hosp:" hospital (Some "HEALTH");
    entry ":ospedale:" hospital (Some "HEALTH");
    entry ":osp:" hospital (Some "HEALTH");
    entry ":workout:" flexed_biceps (Some "GYM");
    entry ":gym:" flexed_biceps (Some "GYM");
    entry ":muscle:" flexed_biceps (Some "GYM");
    entry ":bicep:" flexed_biceps (Some "GYM");
    entry ":biceps:" flexed_biceps (Some "GYM");
    entry ":star:" star None;
    entry ":check:" check_mark None;
    entry ":ita:" flag_italy None;
    entry ":party:" party_popper None;
    entry ":chicken:" poultry_leg None;
    entry ":cross:" latin_cross None;
    entry ":death:" latin_cross None;
    entry ":$:" money_bag None;
    entry ":money:" money_bag None;
    entry ":dollar:" money_bag None ]%string.

(** [titleEnrichmentsAndTypes[token]]: the property named by the matched
    text, [undefined] ([None]) when the object has none.  The keys inherited
    from [Object.prototype] do not start with a colon, so no token names
    one. *)
Fixpoint lookup_in (tbl : list (jsstring * TagData)) (token : jsstring)
  : option TagData :=
  match tbl with
  | [] => None
  | (k, d) :: tbl' => if JS.eqb k token then Some d else lookup_in tbl' token
  end.

Definition lookup (token : jsstring) : option TagData :=
  lookup_in titleEnrichmentsAndTypes token.

(** ** The loop of [_updateEventTitleAndGetType] *)

(** One call of the [forEach] callback on [(newTitle, eventType)]. *)
Definition enrich_step (acc : jsstring * option string) (token : jsstring)
  : jsstring * option string :=
  let (newTitle, ty) := acc in
  match lookup token with
  | None => acc
  | Some data =>
      (replaceAll newTitle token (emoji data),
       if negb (truthy ty) then eventType data else ty)
  end.

Definition enrich (origTitle : jsstring) : jsstring * option string :=
  fold_left enrich_step (matchAll origTitle) (origTitle, None).


(** ** The Calendar services and the effects of the script *)

(** [CalendarApp.EventColor], the enumeration of the Calendar service. *)
Inductive EventColor :=
  | PALE_BLUE | PALE_GREEN | MAUVE | PALE_RED | YELLOW | ORANGE
  | CYAN | GRAY | BLUE | GREEN | RED.

(** What the script can throw: its three classes, the [TypeError] of a
    method call on [null], and whatever a service call raises. *)
Inductive exn :=
  | NoEventFound (message : string)
  | EventNull
  | EventTypeNull
  | TypeError
  | ServiceError (message : string).

Definition is_NoEventFound {A} (r : exn + A) : bool :=
  match r with
  | inl (NoEventFound _) => true
  | _ => false
  end.

(** An event of the calendar as the script sees it. *)
Record EventData := {
  title : jsstring;
  description : jsstring;
  color : option EventColor
}.

(** A [CalendarEvent] object is a handle on the event of that id. *)
Definition CalendarEvent := string.

(** An item of the listing, requested with [fields: "items(id)"]. *)
Record Item := { id : string }.

(** The answer of [Calendar.Events.list]: [items] can be missing, and a
    slot of the array can be [null]. *)
Record Events := { items : option (list (option Item)) }.

Record ListOptions := {
  updatedMin : Z;
  maxResults : Z;
  orderBy : string;
  singleEvents : bool;
  showDeleted : bool;
  fields : string
}.

(** The calls of the write service, in the order they are made. *)
Inductive Call :=
  | SetTitle (event : CalendarEvent) (newTitle : jsstring)
  | SetColor (event : CalendarEvent) (c : EventColor).

Record World := {
  clock : Z;
  Events_list : string -> ListOptions -> string + Events;
  events : CalendarEvent -> option EventData;
  calls : list Call
}.

(** State and exceptions: a computation runs in a world and ends in a
    value or a thrown exception, and in the world it leaves. *)
Definition M (A : Type) := World -> (exn + A) * World.

Definition ret {A} (a : A) : M A := fun w => (inr a, w).

Definition throw {A} (e : exn) : M A := fun w => (inl e, w).

Definition bind {A B} (m : M A) (k : A -> M B) : M B :=
  fun w =>
    match m w with
    | (inl e, w') => (inl e, w')
    | (inr a, w') => k a w'
    end.

Notation "x <- m ;; k" := (bind m (fun x => k))
  (at level 61, m at next level, right associativity).
Notation "m ;;; k" := (bind m (fun _ => k))
  (at level 61, right associativity).

Definition update (event : CalendarEvent) (f : EventData -> EventData)
  (w : World) : World :=
  {| clock := clock w;
     Events_list := Events_list w;
     events := fun i =>
       if String.eqb i event then option_map f (events w i) else events w i;
     calls := calls w |}.

Definition record (c : Call) (w : World) : World :=
  {| clock := clock w;
     Events_list := Events_list w;
     events := events w;
     calls := calls w ++ [c] |}.

(** [new Date().getTime()]. *)
Definition getTime : M Z := fun w => (inr (clock w), w).

(** [Calendar.Events.list(calendarId, options)]. *)
Definition Calendar_Events_list (calendarId : string) (options : ListOptions)
  : M Events :=
  fun w =>
    match Events_list w calendarId options with
    | inl message => (inl (ServiceError message), w)
    | inr answer => (inr answer, w)
    end.

(** [CalendarApp.getEventById(id)]: the event, or [null]. *)
Definition getEventById (i : string) : M (option CalendarEvent) :=
  fun w =>
    match events w i with
    | Some _ => (inr (Some i), w)
    | None => (inr None, w)
    end.

Definition read (event : CalendarEvent) (f : EventData -> jsstring)
  : M jsstring :=
  fun w =>
    match events w event with
    | Some d => (inr (f d), w)
    | None => (inl (ServiceError "Event not found"), w)
    end.

Definition getTitle (event : CalendarEvent) : M jsstring := read event title.

Definition getDescription (event : CalendarEvent) : M jsstring :=
  read event description.

Definition setTitle (event : CalendarEvent) (t : jsstring) : M unit :=
  fun w =>
    (inr tt,
     record (SetTitle event t)
       (update event
          (fun d => {| title := t; description := description d;
                       color := color d |}) w)).

Definition setColor (event : CalendarEvent) (c : EventColor) : M unit :=
  fun w =>
    (inr tt,
     record (SetColor event c)
       (update event
          (fun d => {| title := title d; description := description d;
                       color := Some c |}) w)).

(** ** [_updateEventTitleAndGetType] *)

Definition _updateEventTitleAndGetType (event : CalendarEvent)
  : M (option string) :=
  origTitle <- getTitle event ;;
  let (newTitle, ty) := enrich origTitle in
  (if negb (JS.eqb newTitle origTitle) then setTitle event newTitle
   else ret tt) ;;;
  ret ty.

(** ** [_processEventByType] *)

(** The [switch]: the value of [color] after it. *)
Definition colorFor (ty : option string) : option EventColor :=
  match ty with
  | None => None
  | Some s =>
      if String.eqb s "RUN" then Some GRAY
      else if String.eqb s "BIKE" then Some GRAY
      else if String.eqb s "BIRTHDAY" then Some YELLOW
      else if String.eqb s "DINNER" then Some BLUE
      else if String.eqb s "HEALTH" then Some RED
      else if String.eqb s "GYM" then Some PALE_RED
      else None
  end.

Definition _processEventByType (event : option CalendarEvent)
  (ty : option string) : M unit :=
  match event with
  | None => throw EventNull
  | Some ev =>
      if negb (truthy ty) then throw EventTypeNull
      else
        match colorFor ty with
        | Some c => setColor ev c
        | None => ret tt
        end
  end.

(** ** [_getLastEditedEvent] *)

(** [a[i]] on an array: [undefined] outside of it. *)
Definition at_index {A} (a : list A) (i : Z) : option A :=
  if (i <? 0)%Z then None else nth_error a (Z.to_nat i).

(** The [options] of the listing: the events updated since one minute
    before [now] (the ISO text of the date is left as the time itself). *)
Definition options (now : Z) : ListOptions :=
  let oneMinAgo := (now - 60 * 1000)%Z in
  {| updatedMin := oneMinAgo;
     maxResults := 50;
     orderBy := "updated";
     singleEvents := true;
     showDeleted := false;
     fields := "items(id)" |}.

Definition _getLastEditedEvent (calendarId : string)
  : M (option CalendarEvent) :=
  now <- getTime ;;
  answer <- Calendar_Events_list calendarId (options now) ;;
  match items answer with
  | None => throw (NoEventFound "Calendar.Events.list() returned zero events")
  | Some its =>
      match at_index its (Z.of_nat (List.length its) - 1) with
      | Some (Some event) => getEventById (id event)
      | _ => throw (NoEventFound "The last event in events.items is null")
      end
  end.

(** ** [onCalendarUpdate] *)

Record TriggerData := {
  calendarId : string;
  triggerUid : string;
  authMode : string
}.

Definition skip_marker : jsstring := u16 ":skip:".

Definition onCalendarUpdate (triggerData : TriggerData) : M unit :=
  fun w =>
    match _getLastEditedEvent (calendarId triggerData) w with
    | (inl (NoEventFound _), w') => (inr tt, w')
    | (inl err, w') => (inl err, w')
    | (inr None, w') => (inl TypeError, w')
    | (inr (Some event), w') =>
        (_ <- getTitle event ;;
         description <- getDescription event ;;
         if includes description skip_marker then ret tt
         else
           ty <- _updateEventTitleAndGetType event ;;
           if truthy ty then _processEventByType (Some event) ty
           else ret tt) w'
    end.

(** ** The vocabulary of the specification *)

(** A token of the tag syntax: a colon, one or more of [[a-z$]], a colon. *)
Definition tagLike (u : jsstring) : bool :=
  match u with
  | c :: rest =>
      is_colon c &&
      match rev rest with
      | c' :: body =>
          is_colon c' && forallb isTagChar body &&
          negb (Nat.eqb (List.length body) 0)
      | [] => false
      end
  | [] => false
  end.

(** Two tokens of the tag syntax that share a colon: [:[a-z$]+:[a-z$]+:]. *)
Definition doubleTag (u : jsstring) : bool :=
  match u with
  | c :: rest =>
      is_colon c &&
      negb (Nat.eqb (List.length (takeWhile isTagChar rest)) 0) &&
      tagLike (dropWhile isTagChar rest)
  | [] => false
  end.

Fixpoint prefixes (s : jsstring) : list jsstring :=
  [] :: match s with
        | [] => []
        | c :: s' => map (cons c) (prefixes s')
        end.

(** Every substring of [s] (with repetitions). *)
Fixpoint substrings (s : jsstring) : list jsstring :=
  prefixes s ++
  match s with
  | [] => []
  | _ :: s' => substrings s'
  end.

(** No substring of [s] satisfies [p]. *)
Definition noSubstring (p : jsstring -> bool) (s : jsstring) : bool :=
  forallb (fun u => negb (p u)) (substrings s).

(** The entry of the table whose key starts [s], among the keys [keys]
    accepts. *)
Definition keyAt (keys : jsstring -> bool) (s : jsstring)
  : option (jsstring * TagData) :=
  find (fun kd => keys (fst kd) && startsWith s (fst kd))
    titleEnrichmentsAndTypes.

(** The title with every occurrence of an accepted key of the table, read
    from the left, replaced by the emoji of that key, and every other code
    unit kept. *)
Fixpoint substitute_from (keys : jsstring -> bool) (skip : nat)
  (s : jsstring) : jsstring :=
  match s with
  | [] => []
  | c :: s' =>
      match skip with
      | S k => substitute_from keys k s'
      | O =>
          match keyAt keys s with
          | Some (k, d) =>
              emoji d ++ substitute_from keys (List.length k - 1) s'
          | None => c :: substitute_from keys 0 s'
          end
      end
  end.

Definition substitute_with (keys : jsstring -> bool) (s : jsstring)
  : jsstring :=
  substitute_from keys 0 s.

Definition substitute (s : jsstring) : jsstring :=
  substitute_with (fun _ => true) s.

(** The category of the first token, in the order of the scan, that the
    table knows with a category. *)
Fixpoint leftmost_category (tokens : list jsstring) : option string :=
  match tokens with
  | [] => None
  | token :: rest =>
      match lookup token with
      | Some {| eventType := Some c |} => Some c
      | _ => leftmost_category rest
      end
  end.

(** The tokens of the tag syntax, by their shape. *)
Inductive TagShape : jsstring -> Prop :=
  | tag_shape (run : jsstring) :
      run <> [] -> forallb isTagChar run = true ->
      TagShape (colon :: run ++ [colon]).

(** The code units of the tag syntax. *)
Definition tag_alphabet (c : N) : bool := is_colon c || isTagChar c.

(** A text written with the code units of the tag syntax only. *)
Definition tagText (x : jsstring) : bool := forallb tag_alphabet x.

(** A text with no code unit of the tag syntax. *)
Definition plain (e : jsstring) : bool :=
  forallb (fun c => negb (tag_alphabet c)) e.

(** What the proofs use of an entry of the table: its key is a token of the
    tag syntax, its emoji is not empty and shares no code unit with the tag
    syntax (so it has no [$] pattern for [replaceAll] to expand either), and
    its event type, when not [null], is a truthy string. *)
Definition entry_ok (kd : jsstring * TagData) : bool :=
  let (k, d) := kd in
  tagLike k && negb (Nat.eqb (List.length (emoji d)) 0) && plain (emoji d) &&
  match eventType d with
  | None => true
  | Some _ => truthy (eventType d)
  end.

(** No two tokens of the tag syntax share a colon in [s]. *)
Definition NoShare (s : jsstring) : Prop :=
  forall u, includes s u = true -> doubleTag u = false.

(** The six categories of the colour policy. *)
Definition categories : list string :=
  ["RUN"; "BIKE"; "BIRTHDAY"; "DINNER"; "HEALTH"; "GYM"]%string.

(** ** Sample calendars *)

Definition an_event (t d : string) : EventData :=
  {| title := u16 t; description := u16 d; color := None |}.

(** A calendar with three events, listed from the least to the most
    recently updated. *)
Definition calendar_of (last : EventData) : World :=
  {| clock := 1700000000000;
     Events_list := fun _ _ =>
       inr {| items := Some [Some {| id := "e1" |}; Some {| id := "e2" |};
                             Some {| id := "e3" |}] |};
     events := fun i =>
       if String.eqb i "e1" then Some (an_event "Standup" EmptyString)
       else if String.eqb i "e2" then Some (an_event "Lunch" EmptyString)
       else if String.eqb i "e3" then Some last
       else None;
     calls := [] |}.

Definition trigger : TriggerData :=
  {| calendarId := "me@example.com"; triggerUid := "21985234";
     authMode := "FULL" |}.

Definition morning_run : World :=
  calendar_of (an_event "Morning :run: :check:" EmptyString).

Definition team_dinner : World :=
  calendar_of (an_event "Team :dinner:" "agenda ... :skip:").

(** ** The vocabulary of the further properties *)

(** The tokens occur in [s] in this order, each one after the end of the one
    before. *)
Inductive InOrder : list jsstring -> jsstring -> Prop :=
  | in_order_nil (s : jsstring) : InOrder [] s
  | in_order_skip (tokens : list jsstring) (c : N) (s : jsstring) :
      InOrder tokens s -> InOrder tokens (c :: s)
  | in_order_token (token : jsstring) (tokens : list jsstring)
      (s : jsstring) :
      InOrder tokens s -> InOrder (token :: tokens) (token ++ s).

(** The world that [setTitle], when the new title differs, and [setColor],
    when the category has a colour, leave for the event [event] of data
    [d]. *)
Definition enriched_world (event : CalendarEvent) (d : EventData)
  (w : World) : World :=
  let newTitle := fst (enrich (title d)) in
  let w1 :=
    if JS.eqb newTitle (title d) then w
    else snd (setTitle event newTitle w) in
  match colorFor (snd (enrich (title d))) with
  | Some c => snd (setColor event c w1)
  | None => w1
  end.

(** A calendar whose listing answers [answer], with one event [e1]. *)
Definition calendar_answering (answer : string + Events) : World :=
  {| clock := 1700000000000;
     Events_list := fun _ _ => answer;
     events := fun i =>
       if String.eqb i "e1" then Some (an_event "Standup" EmptyString)
       else None;
     calls := [] |}.

(** ** Strings: equality, prefixes and occurrences *)

Lemma eqb_eq (a b : jsstring) : JS.eqb a b = true <-> a = b.
Proof.
  revert b; induction a as [|x a IH]; intros [|y b]; simpl;
    try (split; [discriminate | congruence]); try tauto.
  rewrite andb_true_iff, N.eqb_eq, IH.
  split; [intros [-> ->]; reflexivity | intros [= -> ->]; auto].
Qed.

Lemma eqb_refl (a : jsstring) : JS.eqb a a = true.
Proof. apply eqb_eq; reflexivity. Qed.

Lemma eqb_neq (a b : jsstring) : JS.eqb a b = false <-> a <> b.
Proof.
  rewrite <- eqb_eq. destruct (JS.eqb a b); split; congruence.
Qed.

Lemma startsWith_iff (s t : jsstring) :
  startsWith s t = true <-> exists r, s = t ++ r.
Proof.
  revert s; induction t as [|x t IH]; intros s; simpl.
  - split; [intros _; exists s; reflexivity | reflexivity].
  - destruct s as [|y s].
    + split; [discriminate | intros [r Hr]; discriminate].
    + rewrite andb_true_iff, N.eqb_eq, IH. split.
      * intros [-> [r ->]]. exists r; reflexivity.
      * intros [r [= -> ->]]. split; [reflexivity | exists r; reflexivity].
Qed.

Lemma startsWith_app (t r : jsstring) : startsWith (t ++ r) t = true.
Proof. apply startsWith_iff; exists r; reflexivity. Qed.

Lemma startsWith_skipn (s t : jsstring) :
  startsWith s t = true -> s = t ++ skipn (List.length t) s.
Proof.
  intros H; apply startsWith_iff in H; destruct H as [r ->].
  rewrite skipn_app, skipn_all, Nat.sub_diag; reflexivity.
Qed.

Lemma includes_iff (s t : jsstring) :
  includes s t = true <-> exists pre post, s = pre ++ t ++ post.
Proof.
  induction s as [|c s IH].
  - simpl. rewrite orb_false_r, startsWith_iff. split.
    + intros [r Hr]. exists [], r; exact Hr.
    + intros [pre [post H]]. destruct pre; [exists post; exact H|discriminate].
  - cbn [includes]. rewrite orb_true_iff, startsWith_iff, IH. split.
    + intros [[r Hr] | [pre [post H]]].
      * exists [], r; exact Hr.
      * exists (c :: pre), post; rewrite H; reflexivity.
    + intros [[|x pre] [post H]].
      * left; exists post; exact H.
      * right; injection H as -> H. exists pre, post; exact H.
Qed.

(** Induction on the length of a string. *)
Lemma length_ind (P : jsstring -> Prop) :
  (forall s, (forall r, List.length r < List.length s -> P r) -> P s) ->
  forall s, P s.
Proof.
  intros step s.
  remember (List.length s) as n eqn:En.
  revert s En; induction n as [n IH] using lt_wf_ind; intros s ->.
  apply step; intros r Hr; exact (IH _ Hr r eq_refl).
Qed.

(** ** [replaceAll] by cases *)

Lemma replaceAll_from_skipn (n : nat) (s t e : jsstring) :
  replaceAll_from n s t e = replaceAll_from 0 (skipn n s) t e.
Proof.
  revert n; induction s as [|c s IH]; intros [|n]; try reflexivity.
  simpl. apply IH.
Qed.

Lemma replaceAll_nil (t e : jsstring) : t <> [] -> replaceAll [] t e = [].
Proof. destruct t; [congruence | reflexivity]. Qed.

Lemma replaceAll_hit (t rest e : jsstring) :
  t <> [] -> replaceAll (t ++ rest) t e = e ++ replaceAll rest t e.
Proof.
  destruct t as [|x t]; [congruence | intros _].
  unfold replaceAll. cbn [app replaceAll_from].
  change (x :: t ++ rest) with ((x :: t) ++ rest).
  rewrite startsWith_app, replaceAll_from_skipn.
  cbn [List.length]. rewrite Nat.sub_succ, Nat.sub_0_r.
  rewrite skipn_app, skipn_all, Nat.sub_diag. reflexivity.
Qed.

Lemma replaceAll_miss (c : N) (s t e : jsstring) :
  startsWith (c :: s) t = false ->
  replaceAll (c :: s) t e = c :: replaceAll s t e.
Proof.
  destruct t as [|x t]; [discriminate | intros H].
  unfold replaceAll. cbn [replaceAll_from]. rewrite H. reflexivity.
Qed.

(** ** The scan by cases *)

Lemma matchAll_from_skipn (n : nat) (s : jsstring) :
  matchAll_from n s = matchAll (skipn n s).
Proof.
  revert n; induction s as [|c s IH]; intros [|n]; try reflexivity.
  simpl. apply IH.
Qed.

Lemma matchAll_miss (c : N) (s : jsstring) :
  matchAt (c :: s) = None -> matchAll (c :: s) = matchAll s.
Proof.
  intros H. unfold matchAll. cbn [matchAll_from]. rewrite H. reflexivity.
Qed.

Lemma is_colon_iff (c : N) : is_colon c = true <-> c = colon.
Proof. apply N.eqb_eq. Qed.

Lemma isTagChar_colon : isTagChar colon = false.
Proof. reflexivity. Qed.

Lemma isTagChar_not_colon (c : N) : isTagChar c = true -> is_colon c = false.
Proof.
  intros H. destruct (is_colon c) eqn:E; [|reflexivity].
  apply is_colon_iff in E; subst c. discriminate.
Qed.

Lemma takeWhile_dropWhile (p : N -> bool) (s : jsstring) :
  s = takeWhile p s ++ dropWhile p s.
Proof.
  induction s as [|c s IH]; simpl; [reflexivity|].
  destruct (p c); simpl; congruence.
Qed.

Lemma takeWhile_all (p : N -> bool) (s : jsstring) :
  forallb p (takeWhile p s) = true.
Proof.
  induction s as [|c s IH]; simpl; [reflexivity|].
  destruct (p c) eqn:E; simpl; [rewrite E; exact IH | reflexivity].
Qed.

Lemma takeWhile_run (p : N -> bool) (run : jsstring) (c : N) (rest : jsstring) :
  forallb p run = true -> p c = false ->
  takeWhile p (run ++ c :: rest) = run /\
  dropWhile p (run ++ c :: rest) = c :: rest.
Proof.
  intros Hrun Hc. induction run as [|x run IH]; simpl in *.
  - rewrite Hc; auto.
  - apply andb_true_iff in Hrun; destruct Hrun as [Hx Hrun].
    rewrite Hx. destruct (IH Hrun) as [-> ->]; auto.
Qed.

Lemma matchAt_Some (s token : jsstring) :
  matchAt s = Some token ->
  TagShape token /\ exists rest, s = token ++ rest.
Proof.
  unfold matchAt. destruct s as [|c s]; [discriminate|].
  destruct (is_colon c) eqn:Ec; [|discriminate].
  apply is_colon_iff in Ec; subst c.
  pose proof (takeWhile_dropWhile isTagChar s) as Hs.
  pose proof (takeWhile_all isTagChar s) as Hall.
  destruct (takeWhile isTagChar s) as [|x run] eqn:Er; [discriminate|].
  destruct (dropWhile isTagChar s) as [|c' rest]; [discriminate|].
  destruct (is_colon c') eqn:Ec'; [|discriminate].
  apply is_colon_iff in Ec'; subst c'.
  intros [= <-]. split.
  - apply (tag_shape (x :: run)); [discriminate | exact Hall].
  - exists rest. rewrite Hs. cbn [app]. rewrite <- app_assoc. reflexivity.
Qed.

Lemma matchAt_shape (token rest : jsstring) :
  TagShape token -> matchAt (token ++ rest) = Some token.
Proof.
  intros [run Hne Hrun]. cbn [app matchAt].
  change (is_colon colon) with true. cbv iota.
  rewrite <- app_assoc. cbn [app].
  destruct (takeWhile_run isTagChar run colon rest Hrun isTagChar_colon)
    as [-> ->].
  destruct run; [congruence|]. reflexivity.
Qed.

(** At most one token of the tag syntax starts a string. *)
Lemma TagShape_prefix_unique (a b x y : jsstring) :
  TagShape a -> TagShape b -> a ++ x = b ++ y -> a = b.
Proof.
  intros Ha Hb E.
  pose proof (matchAt_shape a x Ha) as H1.
  pose proof (matchAt_shape b y Hb) as H2.
  rewrite E in H1. congruence.
Qed.

Lemma matchAll_hit (token rest : jsstring) :
  TagShape token -> matchAll (token ++ rest) = token :: matchAll rest.
Proof.
  intros Ht. pose proof (matchAt_shape token rest Ht) as Hm.
  destruct Ht as [run Hne Hrun].
  unfold matchAll at 1. cbn [app matchAll_from] in *. rewrite Hm.
  rewrite matchAll_from_skipn. f_equal.
  cbn [List.length]. rewrite Nat.sub_succ, Nat.sub_0_r.
  rewrite <- app_assoc, skipn_app, skipn_all2 by (rewrite length_app; lia).
  rewrite length_app. cbn [List.length app].
  replace (List.length run + 1 - List.length run) with 1 by lia.
  reflexivity.
Qed.

Lemma forallb_rev (p : N -> bool) (l : jsstring) :
  forallb p (rev l) = forallb p l.
Proof.
  apply eq_true_iff_eq. rewrite !forallb_forall.
  split; intros H x Hx; apply H.
  - apply (proj1 (in_rev l x)); exact Hx.
  - apply (proj2 (in_rev l x)); exact Hx.
Qed.

Lemma tagLike_iff (u : jsstring) : tagLike u = true <-> TagShape u.
Proof.
  split.
  - destruct u as [|c rest]; [discriminate|]. cbn [tagLike].
    destruct (is_colon c) eqn:Ec; [|discriminate].
    apply is_colon_iff in Ec; subst c.
    destruct (rev rest) as [|c' body] eqn:Er; [discriminate|].
    intros H. cbn [andb] in H.
    apply andb_true_iff in H; destruct H as [H Hlen].
    apply andb_true_iff in H; destruct H as [Hc' Hbody].
    apply is_colon_iff in Hc'; subst c'.
    assert (rest = rev body ++ [colon]) as ->.
    { rewrite <- (rev_involutive rest), Er. reflexivity. }
    constructor.
    + destruct body; [discriminate | cbn [rev]].
      intros E; apply app_eq_nil in E; destruct E; discriminate.
    + rewrite forallb_rev; exact Hbody.
  - intros [run Hne Hrun]. cbn [tagLike].
    change (is_colon colon) with true. cbn [andb].
    rewrite rev_app_distr. cbn [rev app].
    change (is_colon colon) with true. cbn [andb].
    rewrite forallb_rev, Hrun, length_rev. cbn [andb].
    destruct run; [congruence | reflexivity].
Qed.

(** ** The entries of the table *)

Lemma table_ok : forallb entry_ok titleEnrichmentsAndTypes = true.
Proof. vm_compute. reflexivity. Qed.

Lemma lookup_in_In (tbl : list (jsstring * TagData)) (t : jsstring)
  (d : TagData) :
  lookup_in tbl t = Some d -> In (t, d) tbl.
Proof.
  induction tbl as [|[k d'] tbl IH]; simpl; [discriminate|].
  destruct (JS.eqb k t) eqn:E.
  - apply eqb_eq in E; subst k. intros [= ->]. left; reflexivity.
  - intros H; right; exact (IH H).
Qed.

Lemma In_table_ok (t : jsstring) (d : TagData) :
  In (t, d) titleEnrichmentsAndTypes ->
  TagShape t /\ emoji d <> [] /\ plain (emoji d) = true /\
  (eventType d = None \/ truthy (eventType d) = true).
Proof.
  intros H.
  pose proof (proj1 (forallb_forall _ _) table_ok _ H) as Hok.
  unfold entry_ok in Hok.
  repeat (apply andb_true_iff in Hok; destruct Hok as [Hok ?]).
  repeat split.
  - apply tagLike_iff; assumption.
  - intros E; rewrite E in *; discriminate.
  - assumption.
  - destruct (eventType d); [right; assumption | left; reflexivity].
Qed.

Lemma lookup_ok (t : jsstring) (d : TagData) :
  lookup t = Some d ->
  TagShape t /\ emoji d <> [] /\ plain (emoji d) = true /\
  (eventType d = None \/ truthy (eventType d) = true).
Proof. intros H; apply In_table_ok, lookup_in_In; exact H. Qed.

Lemma TagShape_tagText (t : jsstring) : TagShape t -> tagText t = true.
Proof.
  intros [run _ Hrun]. unfold tagText. cbn [forallb].
  rewrite forallb_app. cbn [forallb].
  change (tag_alphabet colon) with true. cbn [andb]. rewrite andb_true_r.
  apply forallb_forall; intros c Hc.
  unfold tag_alphabet. rewrite (proj1 (forallb_forall _ _) Hrun c Hc).
  apply orb_true_r.
Qed.

Lemma TagShape_cons (t : jsstring) :
  TagShape t -> exists t', t = colon :: t'.
Proof. intros [run _ _]. eexists; reflexivity. Qed.

(** ** A replacement by an emoji leaves no tag behind, and makes none *)

Section Replace.

Variables t e : jsstring.
Hypothesis Ht : TagShape t.
Hypothesis He : e <> [].
Hypothesis Hplain : plain e = true.

Lemma TagShape_not_nil : t <> [].
Proof. destruct Ht; discriminate. Qed.

Lemma startsWith_no_colon (c : N) (s : jsstring) :
  is_colon c = false -> startsWith (c :: s) t = false.
Proof.
  intros Hc. destruct (TagShape_cons t Ht) as [t' ->]. cbn [startsWith].
  unfold is_colon in Hc. rewrite N.eqb_sym, Hc. reflexivity.
Qed.

Lemma replaceAll_keep (c : N) (s : jsstring) :
  is_colon c = false -> replaceAll (c :: s) t e = c :: replaceAll s t e.
Proof. intros Hc. apply replaceAll_miss, startsWith_no_colon, Hc. Qed.

Lemma replaceAll_plain (em s : jsstring) :
  plain em = true -> replaceAll (em ++ s) t e = em ++ replaceAll s t e.
Proof.
  induction em as [|c em IH]; [reflexivity|]. cbn [plain forallb app].
  intros H; apply andb_true_iff in H; destruct H as [Hc Hem].
  rewrite replaceAll_keep, (IH Hem); [reflexivity|].
  unfold tag_alphabet in Hc. apply negb_true_iff, orb_false_iff in Hc.
  tauto.
Qed.

Lemma startsWith_plain (em r x : jsstring) :
  em <> [] -> plain em = true -> tagText x = true ->
  startsWith (em ++ r) x = true -> x = [].
Proof.
  intros Hne Hem Hx H. destruct x as [|b x]; [reflexivity|].
  destruct em as [|a em]; [congruence|]. exfalso.
  cbn [app startsWith] in H. apply andb_true_iff in H; destruct H as [H _].
  apply N.eqb_eq in H; subst b.
  cbn [plain forallb] in Hem. cbn [tagText forallb] in Hx.
  apply andb_true_iff in Hem; destruct Hem as [Hem _].
  apply andb_true_iff in Hx; destruct Hx as [Hx _].
  rewrite Hx in Hem; discriminate.
Qed.

Lemma includes_plain (em r x : jsstring) :
  plain em = true -> tagText x = true -> x <> [] ->
  includes (em ++ r) x = includes r x.
Proof.
  intros Hem Hx Hne. induction em as [|a em IH]; [reflexivity|].
  cbn [app includes]. cbn [plain forallb] in Hem.
  apply andb_true_iff in Hem; destruct Hem as [Ha Hem].
  rewrite (IH Hem).
  destruct (startsWith (a :: em ++ r) x) eqn:E; [|reflexivity].
  exfalso; apply Hne.
  apply (startsWith_plain (a :: em) r x); auto; [discriminate|].
  cbn [plain forallb]. rewrite Ha; exact Hem.
Qed.

Lemma includes_app_r (a s x : jsstring) :
  includes s x = true -> includes (a ++ s) x = true.
Proof.
  intros H; apply includes_iff in H; destruct H as [pre [post ->]].
  apply includes_iff. exists (a ++ pre), post. rewrite app_assoc; reflexivity.
Qed.

Lemma startsWith_includes (s x : jsstring) :
  startsWith s x = true -> includes s x = true.
Proof. intros H. destruct s; cbn [includes]; rewrite H; reflexivity. Qed.

Lemma hit_split (s : jsstring) :
  startsWith s t = true ->
  exists rest, s = t ++ rest /\ List.length rest < List.length s.
Proof.
  intros H; apply startsWith_iff in H; destruct H as [rest ->].
  exists rest; split; [reflexivity|]. rewrite length_app.
  pose proof TagShape_not_nil. destruct t; [congruence | simpl; lia].
Qed.

(** A prefix written in the tag syntax is a prefix of the original. *)
Lemma startsWith_replaceAll (s x : jsstring) :
  tagText x = true ->
  startsWith (replaceAll s t e) x = true -> startsWith s x = true.
Proof.
  intros Hx. revert x Hx. induction s as [|c s IH]; intros x Hx H.
  - rewrite replaceAll_nil in H by exact TagShape_not_nil. exact H.
  - destruct (startsWith (c :: s) t) eqn:Hit.
    + apply startsWith_skipn in Hit. rewrite Hit in H.
      rewrite replaceAll_hit in H by exact TagShape_not_nil.
      rewrite (startsWith_plain _ _ _ He Hplain Hx H). reflexivity.
    + rewrite replaceAll_miss in H by exact Hit.
      destruct x as [|b x]; [reflexivity|]. cbn [startsWith] in *.
      apply andb_true_iff in H; destruct H as [Hb H].
      rewrite Hb. cbn [andb]. apply IH; [|exact H].
      cbn [tagText forallb] in Hx. apply andb_true_iff in Hx; tauto.
Qed.

(** An occurrence of a text of the tag syntax in the result was one in the
    original: the replacement creates none. *)
Lemma includes_replaceAll (s x : jsstring) :
  tagText x = true ->
  includes (replaceAll s t e) x = true -> includes s x = true.
Proof.
  intros Hx. induction s as [s IH] using length_ind. intros H.
  destruct x as [|b x'] eqn:Ex.
  { destruct s; reflexivity. }
  rewrite <- Ex in *. assert (x <> []) as Hne by (subst x; discriminate).
  clear Ex. destruct s as [|c s].
  - rewrite replaceAll_nil in H by exact TagShape_not_nil. exact H.
  - destruct (startsWith (c :: s) t) eqn:Hit.
    + destruct (hit_split _ Hit) as [rest [E Hlen]]. rewrite E in H |- *.
      rewrite replaceAll_hit in H by exact TagShape_not_nil.
      rewrite includes_plain in H by assumption.
      apply includes_app_r, IH; [exact Hlen | exact H].
    + pose proof H as H'. rewrite replaceAll_miss in H by exact Hit.
      cbn [includes] in H. apply orb_true_iff in H. destruct H as [H|H].
      * rewrite <- (replaceAll_miss _ _ _ _ Hit) in H.
        apply startsWith_includes, startsWith_replaceAll; assumption.
      * change (c :: s) with ([c] ++ s). apply includes_app_r, IH; auto.
Qed.

(** No occurrence of the replaced tag is left. *)
Lemma replaceAll_removes (s : jsstring) :
  includes (replaceAll s t e) t = false.
Proof.
  pose proof TagShape_not_nil as Hne.
  pose proof (TagShape_tagText t Ht) as Htext.
  induction s as [s IH] using length_ind.
  destruct s as [|c s].
  - rewrite replaceAll_nil by exact Hne. destruct t; [congruence|reflexivity].
  - destruct (startsWith (c :: s) t) eqn:Hit.
    + destruct (hit_split _ Hit) as [rest [E Hlen]]. rewrite E.
      rewrite replaceAll_hit, includes_plain by assumption.
      apply IH; exact Hlen.
    + destruct (includes (replaceAll (c :: s) t e) t) eqn:E; [|reflexivity].
      rewrite replaceAll_miss in E by exact Hit.
      cbn [includes] in E. apply orb_true_iff in E. destruct E as [E|E].
      * rewrite <- (replaceAll_miss _ _ _ _ Hit) in E.
        apply startsWith_replaceAll in E; [congruence | exact Htext].
      * rewrite IH in E; [discriminate | simpl; lia].
Qed.

End Replace.

(** ** The loop over the tokens *)

Lemma enrich_step_unknown (acc : jsstring * option string) (token : jsstring) :
  lookup token = None -> enrich_step acc token = acc.
Proof. intros H. destruct acc. unfold enrich_step. rewrite H. reflexivity. Qed.

Lemma enrich_step_known (s : jsstring) (ty : option string)
  (token : jsstring) (d : TagData) :
  lookup token = Some d ->
  enrich_step (s, ty) token =
  (replaceAll s token (emoji d), if negb (truthy ty) then eventType d else ty).
Proof. intros H. unfold enrich_step. rewrite H. reflexivity. Qed.

Lemma fold_unknown (tokens : list jsstring) (acc : jsstring * option string) :
  (forall token, In token tokens -> lookup token = None) ->
  fold_left enrich_step tokens acc = acc.
Proof.
  revert acc; induction tokens as [|a tokens IH]; intros acc H; [reflexivity|].
  cbn [fold_left]. rewrite enrich_step_unknown by (apply H; left; reflexivity).
  apply IH. intros token Hin; apply H; right; exact Hin.
Qed.

(** A text of the tag syntax that does not occur in the title does not occur
    in the new title either. *)
Lemma fold_absent (tokens : list jsstring) (x s : jsstring)
  (ty : option string) :
  tagText x = true -> includes s x = false ->
  includes (fst (fold_left enrich_step tokens (s, ty))) x = false.
Proof.
  intros Hx. revert s ty.
  induction tokens as [|a tokens IH]; intros s ty H; [exact H|].
  cbn [fold_left]. destruct (lookup a) as [d|] eqn:E.
  - rewrite (enrich_step_known _ _ _ _ E). apply IH.
    destruct (lookup_ok _ _ E) as [Ha [Hne [Hplain _]]].
    destruct (includes (replaceAll s a (emoji d)) x) eqn:Hin; [|reflexivity].
    apply (includes_replaceAll a (emoji d) Ha Hne Hplain) in Hin;
      [congruence | exact Hx].
  - rewrite enrich_step_unknown by exact E. apply IH; exact H.
Qed.

(** No token of the scan that the table knows occurs in the new title. *)
Lemma fold_removes (tokens : list jsstring) (token s : jsstring)
  (ty : option string) (d : TagData) :
  In token tokens -> lookup token = Some d ->
  includes (fst (fold_left enrich_step tokens (s, ty))) token = false.
Proof.
  intros Hin Hd. destruct (lookup_ok _ _ Hd) as [Ht [Hne [Hplain _]]].
  revert s ty Hin.
  induction tokens as [|a tokens IH]; intros s ty Hin; [destruct Hin|].
  cbn [fold_left]. destruct Hin as [->|Hin].
  - rewrite (enrich_step_known _ _ _ _ Hd).
    apply fold_absent; [apply TagShape_tagText; exact Ht|].
    apply replaceAll_removes; assumption.
  - destruct (enrich_step (s, ty) a) as [s1 ty1]. apply IH; exact Hin.
Qed.

Lemma fold_category (tokens : list jsstring) (s : jsstring)
  (ty : option string) :
  ty = None \/ truthy ty = true ->
  snd (fold_left enrich_step tokens (s, ty)) =
  if truthy ty then ty else leftmost_category tokens.
Proof.
  revert s ty. induction tokens as [|a tokens IH]; intros s ty Hty.
  - destruct Hty as [-> | ->]; reflexivity.
  - cbn [fold_left leftmost_category]. destruct (lookup a) as [d|] eqn:E.
    + rewrite (enrich_step_known _ _ _ _ E).
      destruct (lookup_ok _ _ E) as [_ [_ [_ Hd]]].
      destruct Hty as [->|Hty].
      * cbn [truthy negb]. rewrite IH by exact Hd.
        destruct d as [em [c|]]; cbn [eventType] in *.
        -- destruct Hd as [Hd|Hd]; [discriminate | rewrite Hd; reflexivity].
        -- reflexivity.
      * rewrite Hty. cbn [negb]. rewrite IH by (right; exact Hty).
        rewrite Hty; reflexivity.
    + rewrite enrich_step_unknown by exact E. apply IH; exact Hty.
Qed.

(** ** The tokens of the scan are substrings of the tag syntax *)

Lemma matchAll_cases (s : jsstring) :
  (s = [] /\ matchAll s = []) \/
  (exists token rest, s = token ++ rest /\ TagShape token /\
     List.length rest < List.length s /\
     matchAll s = token :: matchAll rest) \/
  (exists c s', s = c :: s' /\ matchAt s = None /\ matchAll s = matchAll s').
Proof.
  destruct s as [|c s]; [left; split; reflexivity | right].
  destruct (matchAt (c :: s)) as [token|] eqn:E.
  - left. destruct (matchAt_Some _ _ E) as [Ht [rest Hs]].
    exists token, rest. rewrite Hs. repeat split; auto.
    + rewrite length_app. destruct Ht; simpl; lia.
    + apply matchAll_hit; exact Ht.
  - right. exists c, s. repeat split; auto. apply matchAll_miss; exact E.
Qed.

Lemma matchAll_In (s token : jsstring) :
  In token (matchAll s) -> TagShape token /\ includes s token = true.
Proof.
  induction s as [s IH] using length_ind.
  destruct (matchAll_cases s)
    as [[-> ->]
       | [(t0 & rest & -> & Ht0 & Hlen & ->) | (c & s' & -> & _ & ->)]].
  - intros [].
  - intros [<-|Hin].
    + split; [exact Ht0 | apply startsWith_includes, startsWith_app].
    + destruct (IH rest Hlen Hin) as [Ht Hinc].
      split; [exact Ht | apply includes_app_r; exact Hinc].
  - intros Hin. destruct (IH s' (Nat.lt_succ_diag_r _) Hin) as [Ht Hinc].
    split; [exact Ht|].
    change (c :: s') with ([c] ++ s'). apply includes_app_r; exact Hinc.
Qed.

Lemma prefixes_iff (s u : jsstring) :
  In u (prefixes s) <-> startsWith s u = true.
Proof.
  revert u; induction s as [|c s IH]; intros u; cbn [prefixes].
  - destruct u; simpl; intuition congruence.
  - destruct u as [|b u]; [simpl; tauto|]. cbn [startsWith In]. split.
    + intros [H|H]; [discriminate|]. apply in_map_iff in H.
      destruct H as [v [[= -> ->] Hv]]. apply IH in Hv.
      rewrite N.eqb_refl, Hv; reflexivity.
    + intros H; apply andb_true_iff in H; destruct H as [Hb H].
      apply N.eqb_eq in Hb; subst b. right.
      apply in_map, IH; exact H.
Qed.

Lemma substrings_iff (s u : jsstring) :
  In u (substrings s) <-> includes s u = true.
Proof.
  induction s as [|c s IH]; cbn [substrings includes];
    rewrite in_app_iff, prefixes_iff, orb_true_iff.
  - simpl; intuition congruence.
  - rewrite IH; reflexivity.
Qed.

Lemma noSubstring_iff (p : jsstring -> bool) (s : jsstring) :
  noSubstring p s = true <-> forall u, includes s u = true -> p u = false.
Proof.
  unfold noSubstring. rewrite forallb_forall. split; intros H u Hu.
  - apply negb_true_iff, H, substrings_iff, Hu.
  - apply negb_true_iff, H, substrings_iff, Hu.
Qed.

Lemma noSubstring_tagLike (s : jsstring) :
  noSubstring tagLike s = true -> matchAll s = [].
Proof.
  intros H. destruct (matchAll s) as [|token l] eqn:E; [reflexivity|].
  destruct (matchAll_In s token) as [Ht Hin]; [rewrite E; left; reflexivity|].
  apply tagLike_iff in Ht.
  rewrite (proj1 (noSubstring_iff _ _) H _ Hin) in Ht. discriminate.
Qed.

(** ** Titles whose tokens share no colon *)

Lemma NoShare_suffix (a s : jsstring) : NoShare (a ++ s) -> NoShare s.
Proof. intros H u Hu. apply H, includes_app_r, Hu. Qed.

Lemma doubleTag_shape (run b : jsstring) :
  run <> [] -> forallb isTagChar run = true -> TagShape b ->
  doubleTag (colon :: run ++ b) = true.
Proof.
  intros Hne Hrun Hb. pose proof (proj2 (tagLike_iff b) Hb) as Hlike.
  destruct Hb as [run2 Hne2 Hrun2]. cbn [doubleTag].
  change (is_colon colon) with true. cbn [andb app] in *.
  destruct (takeWhile_run isTagChar run colon (run2 ++ [colon]) Hrun
              isTagChar_colon) as [-> ->].
  rewrite Hlike, andb_true_r.
  destruct run; [congruence | reflexivity].
Qed.

(** A run of the class, then [x]: an occurrence that starts with a colon
    starts in [x]. *)
Lemma run_split (run x pre u post : jsstring) :
  forallb isTagChar run = true ->
  run ++ x = pre ++ (colon :: u) ++ post ->
  exists pre', pre = run ++ pre' /\ x = pre' ++ (colon :: u) ++ post.
Proof.
  revert pre; induction run as [|a run IH]; intros pre Hrun E.
  - exists pre; split; [reflexivity | exact E].
  - cbn [forallb] in Hrun. apply andb_true_iff in Hrun.
    destruct Hrun as [Ha Hrun]. destruct pre as [|p pre].
    + injection E as -> _. discriminate.
    + injection E as -> E. destruct (IH pre Hrun E) as [pre' [-> ->]].
      exists pre'; split; reflexivity.
Qed.

(** Where no two tokens share a colon, the scan finds every substring of
    the tag syntax. *)
Lemma matchAll_complete (s u : jsstring) :
  NoShare s -> TagShape u -> includes s u = true -> In u (matchAll s).
Proof.
  intros Hns Hu. induction s as [s IH] using length_ind. intros Hin.
  apply includes_iff in Hin. destruct Hin as [pre [post E]].
  destruct (matchAll_cases s)
    as [[-> ->]
       | [(t0 & rest & -> & Ht0 & Hlen & ->) | (c & s' & -> & Hm & ->)]].
  - destruct Hu. destruct pre; discriminate.
  - destruct pre as [|p pre].
    + left. exact (TagShape_prefix_unique _ _ _ _ Ht0 Hu E).
    + right. destruct Ht0 as [run Hne Hrun].
      pose proof Hu as Hu'. destruct Hu' as [run2 Hne2 Hrun2].
      injection E as <- E. rewrite <- app_assoc in E.
      destruct (run_split _ _ _ _ _ Hrun E) as [pre' [-> E']].
      destruct pre' as [|q pre'].
      * exfalso. cbn [app] in E'. injection E' as E'.
        assert (doubleTag (colon :: run ++ colon :: run2 ++ [colon]) = true)
          as Hd by (apply doubleTag_shape; auto; constructor; auto).
        rewrite Hns in Hd; [discriminate|].
        apply startsWith_includes, startsWith_iff. exists post.
        cbn [app]. rewrite <- !app_assoc. cbn [app]. rewrite E'.
        rewrite <- !app_assoc. reflexivity.
      * cbn [app] in E'. injection E' as _ E'.
        apply IH; [exact Hlen | |].
        -- exact (NoShare_suffix _ _ Hns).
        -- apply includes_iff. exists pre', post. exact E'.
  - destruct pre as [|p pre].
    + cbn [app] in E. rewrite E, (matchAt_shape u post Hu) in Hm.
      discriminate.
    + injection E as _ E. apply IH; [simpl; lia | |].
      * exact (NoShare_suffix [c] s' Hns).
      * apply includes_iff. exists pre, post. exact E.
Qed.

(** The second pass finds nothing that the table knows. *)
Lemma second_scan_unknown (title token : jsstring) :
  NoShare title ->
  In token (matchAll (fst (enrich title))) -> lookup token = None.
Proof.
  intros Hns Hin. destruct (lookup token) as [d|] eqn:E; [exfalso|reflexivity].
  destruct (matchAll_In _ _ Hin) as [Ht Hout].
  destruct (includes title token) eqn:Hinc.
  - pose proof (matchAll_complete title token Hns Ht Hinc) as Hscan.
    unfold enrich in Hout.
    rewrite (fold_removes _ _ title None d Hscan E) in Hout. discriminate.
  - unfold enrich in Hout.
    rewrite (fold_absent _ _ title None (TagShape_tagText _ Ht) Hinc) in Hout.
    discriminate.
Qed.

(** ** The substitution of the keys, by cases *)

Lemma find_lookup_in (p : jsstring -> bool) (tbl : list (jsstring * TagData))
  (k : jsstring) (d : TagData) :
  find (fun kd => p (fst kd)) tbl = Some (k, d) ->
  lookup_in tbl k = Some d /\ p k = true.
Proof.
  induction tbl as [|[k0 d0] tbl IH]; cbn [find lookup_in fst]; [discriminate|].
  destruct (p k0) eqn:E0.
  - intros [= -> ->]. rewrite eqb_refl. auto.
  - intros H. destruct (IH H) as [Hl Hp]. split; [|exact Hp].
    destruct (JS.eqb k0 k) eqn:E; [|exact Hl].
    apply eqb_eq in E; subst k0. congruence.
Qed.

Lemma keyAt_Some (keys : jsstring -> bool) (s k : jsstring) (d : TagData) :
  keyAt keys s = Some (k, d) ->
  lookup k = Some d /\ keys k = true /\ startsWith s k = true.
Proof.
  intros H. unfold keyAt in H.
  apply (find_lookup_in (fun k => keys k && startsWith s k)) in H.
  destruct H as [Hl Hp]. apply andb_true_iff in Hp. tauto.
Qed.

Lemma keyAt_None (keys : jsstring -> bool) (s k : jsstring) (d : TagData) :
  keyAt keys s = None -> lookup k = Some d -> keys k = true ->
  startsWith s k = false.
Proof.
  intros H Hl Hk. unfold keyAt in H.
  pose proof (find_none _ _ H _ (lookup_in_In _ _ _ Hl)) as Hp.
  cbn [fst] in Hp. rewrite Hk in Hp. exact Hp.
Qed.

(** The key that starts [s] is the only one. *)
Lemma keyAt_the (keys : jsstring -> bool) (s k : jsstring) (d : TagData) :
  lookup k = Some d -> keys k = true -> startsWith s k = true ->
  keyAt keys s = Some (k, d).
Proof.
  intros Hl Hk Hs. destruct (keyAt keys s) as [[k' d']|] eqn:E.
  - destruct (keyAt_Some _ _ _ _ E) as [Hl' [_ Hs']].
    apply startsWith_iff in Hs, Hs'. destruct Hs as [r Hr], Hs' as [r' Hr'].
    destruct (lookup_ok _ _ Hl) as [Ht _], (lookup_ok _ _ Hl') as [Ht' _].
    assert (k' = k) as ->
      by (apply (TagShape_prefix_unique k' k r' r); congruence).
    congruence.
  - rewrite (keyAt_None _ _ _ _ E Hl Hk) in Hs. discriminate.
Qed.

Lemma keyAt_ext (K1 K2 : jsstring -> bool) (s : jsstring) :
  (forall k d, lookup k = Some d -> startsWith s k = true -> K1 k = K2 k) ->
  keyAt K1 s = keyAt K2 s.
Proof.
  intros H. destruct (keyAt K1 s) as [[k d]|] eqn:E1.
  - destruct (keyAt_Some _ _ _ _ E1) as [Hl [Hk Hs]].
    symmetry. apply keyAt_the; auto. rewrite <- (H k d Hl Hs). exact Hk.
  - destruct (keyAt K2 s) as [[k d]|] eqn:E2; [|reflexivity].
    destruct (keyAt_Some _ _ _ _ E2) as [Hl [Hk Hs]].
    rewrite <- (H k d Hl Hs) in Hk.
    rewrite (keyAt_None _ _ _ _ E1 Hl Hk) in Hs. discriminate.
Qed.

Lemma keyAt_no_colon (keys : jsstring -> bool) (c : N) (s : jsstring) :
  is_colon c = false -> keyAt keys (c :: s) = None.
Proof.
  intros Hc. destruct (keyAt keys (c :: s)) as [[k d]|] eqn:E; [|reflexivity].
  destruct (keyAt_Some _ _ _ _ E) as [Hl [_ Hs]].
  destruct (lookup_ok _ _ Hl) as [Ht _].
  rewrite (startsWith_no_colon k Ht c s Hc) in Hs. discriminate.
Qed.

Lemma substitute_from_skipn (keys : jsstring -> bool) (n : nat)
  (s : jsstring) :
  substitute_from keys n s = substitute_with keys (skipn n s).
Proof.
  revert n; induction s as [|c s IH]; intros [|n]; try reflexivity.
  simpl. apply IH.
Qed.

Lemma substitute_hit (keys : jsstring -> bool) (k rest : jsstring)
  (d : TagData) :
  keyAt keys (k ++ rest) = Some (k, d) ->
  substitute_with keys (k ++ rest) = emoji d ++ substitute_with keys rest.
Proof.
  intros H. destruct (keyAt_Some _ _ _ _ H) as [Hl _].
  destruct (lookup_ok _ _ Hl) as [Ht _]. clear Hl.
  destruct Ht as [run Hne Hrun].
  unfold substitute_with at 1. cbn [app substitute_from] in *. rewrite H.
  rewrite substitute_from_skipn. do 2 f_equal.
  cbn [List.length]. rewrite Nat.sub_succ, Nat.sub_0_r.
  rewrite <- app_assoc, skipn_app, skipn_all2 by (rewrite length_app; lia).
  rewrite length_app. cbn [List.length app].
  replace (List.length run + 1 - List.length run) with 1 by lia.
  reflexivity.
Qed.

Lemma substitute_miss (keys : jsstring -> bool) (c : N) (s : jsstring) :
  keyAt keys (c :: s) = None ->
  substitute_with keys (c :: s) = c :: substitute_with keys s.
Proof.
  intros H. unfold substitute_with. cbn [substitute_from]. rewrite H.
  reflexivity.
Qed.

Lemma substitute_cases (keys : jsstring -> bool) (s : jsstring) :
  (s = [] /\ substitute_with keys s = []) \/
  (exists k d rest, s = k ++ rest /\ keyAt keys s = Some (k, d) /\
     List.length rest < List.length s /\
     substitute_with keys s = emoji d ++ substitute_with keys rest) \/
  (exists c s', s = c :: s' /\ keyAt keys s = None /\
     substitute_with keys s = c :: substitute_with keys s').
Proof.
  destruct s as [|c s]; [left; split; reflexivity | right].
  destruct (keyAt keys (c :: s)) as [[k d]|] eqn:E.
  - left. destruct (keyAt_Some _ _ _ _ E) as [Hl [_ Hs]].
    destruct (lookup_ok _ _ Hl) as [Ht _].
    destruct (hit_split k Ht _ Hs) as [rest [Hr Hlen]].
    exists k, d, rest. rewrite Hr in E |- *. repeat split; auto.
    + rewrite <- Hr; exact Hlen.
    + apply substitute_hit; exact E.
  - right. exists c, s. repeat split; auto. apply substitute_miss; exact E.
Qed.

Lemma substitute_ext (K1 K2 : jsstring -> bool) (s : jsstring) :
  (forall k d, lookup k = Some d -> includes s k = true -> K1 k = K2 k) ->
  substitute_with K1 s = substitute_with K2 s.
Proof.
  induction s as [s IH] using length_ind. intros H.
  assert (keyAt K1 s = keyAt K2 s) as Hkey.
  { apply keyAt_ext. intros k d Hl Hs.
    apply (H k d Hl), startsWith_includes, Hs. }
  destruct (substitute_cases K1 s)
    as [[-> ->]
       | [(k & d & rest & -> & Hk & Hlen & ->) | (c & s' & -> & Hk & ->)]].
  - reflexivity.
  - rewrite Hkey in Hk. rewrite (substitute_hit _ _ _ _ Hk). f_equal.
    apply IH; [exact Hlen|]. intros k' d' Hl Hin.
    apply (H k' d' Hl), includes_app_r, Hin.
  - rewrite Hkey in Hk. rewrite (substitute_miss _ _ _ Hk). f_equal.
    apply IH; [simpl; lia|]. intros k' d' Hl Hin.
    apply (H k' d' Hl). change (c :: s') with ([c] ++ s').
    apply includes_app_r, Hin.
Qed.

Lemma substitute_none (s : jsstring) : substitute_with (fun _ => false) s = s.
Proof.
  induction s as [|c s IH]; [reflexivity|].
  rewrite substitute_miss, IH; [reflexivity|].
  destruct (keyAt (fun _ => false) (c :: s)) as [[k d]|] eqn:E; [|reflexivity].
  destruct (keyAt_Some _ _ _ _ E) as [_ [H _]]. discriminate.
Qed.

Lemma substitute_run (keys : jsstring -> bool) (run x : jsstring) :
  forallb isTagChar run = true ->
  substitute_with keys (run ++ x) = run ++ substitute_with keys x.
Proof.
  induction run as [|a run IH]; [reflexivity|]. cbn [forallb app].
  intros H; apply andb_true_iff in H; destruct H as [Ha Hrun].
  rewrite substitute_miss, (IH Hrun); [reflexivity|].
  apply keyAt_no_colon, isTagChar_not_colon, Ha.
Qed.

(** A prefix written in the tag syntax is a prefix of the original. *)
Lemma startsWith_substitute (keys : jsstring -> bool) (s x : jsstring) :
  tagText x = true ->
  startsWith (substitute_with keys s) x = true -> startsWith s x = true.
Proof.
  intros Hx. revert x Hx. induction s as [|c s IH]; intros x Hx H; [exact H|].
  destruct (keyAt keys (c :: s)) as [[k d]|] eqn:E.
  - destruct (keyAt_Some _ _ _ _ E) as [Hl [_ Hs]].
    destruct (lookup_ok _ _ Hl) as [Ht [Hne [Hplain _]]].
    destruct (hit_split k Ht _ Hs) as [rest [Hr _]]. rewrite Hr in E, H.
    rewrite (substitute_hit _ _ _ _ E) in H.
    rewrite (startsWith_plain _ _ _ Hne Hplain Hx H). reflexivity.
  - rewrite (substitute_miss _ _ _ E) in H.
    destruct x as [|b x]; [reflexivity|]. cbn [startsWith] in *.
    apply andb_true_iff in H; destruct H as [Hb H].
    rewrite Hb. cbn [andb]. apply IH; [|exact H].
    cbn [tagText forallb] in Hx. apply andb_true_iff in Hx; tauto.
Qed.

(** ** The loop substitutes the keys where no two tokens share a colon *)

(** A token that is not yet substituted is copied whole. *)
Lemma substitute_copy (keys : jsstring -> bool) (t rest : jsstring) :
  TagShape t -> NoShare (t ++ rest) -> keyAt keys (t ++ rest) = None ->
  substitute_with keys (t ++ rest) = t ++ substitute_with keys rest.
Proof.
  intros Ht Hns Hk. destruct Ht as [run Hne Hrun].
  cbn [app] in *. rewrite <- !app_assoc in *. cbn [app] in *.
  rewrite (substitute_miss _ _ _ Hk), (substitute_run _ _ _ Hrun). do 2 f_equal.
  apply substitute_miss.
  destruct (keyAt keys (colon :: rest)) as [[k dk]|] eqn:E;
    [exfalso | reflexivity].
  destruct (keyAt_Some _ _ _ _ E) as [Hl [_ Hs]].
  destruct (lookup_ok _ _ Hl) as [Htk _].
  apply startsWith_iff in Hs. destruct Hs as [r Hr].
  pose proof (doubleTag_shape run k Hne Hrun Htk) as Hd.
  rewrite Hns in Hd; [discriminate|].
  apply startsWith_includes, startsWith_iff. exists r.
  rewrite Hr. cbn [app]. rewrite <- app_assoc. reflexivity.
Qed.

(** Replacing a key of the table in a title where the keys [keys] are
    substituted substitutes that key too. *)
Lemma replaceAll_substitute (keys : jsstring -> bool) (s t : jsstring)
  (d : TagData) :
  NoShare s -> lookup t = Some d ->
  replaceAll (substitute_with keys s) t (emoji d) =
  substitute_with (fun k => JS.eqb k t || keys k) s.
Proof.
  intros Hns Hl. destruct (lookup_ok _ _ Hl) as [Ht [Hne [Hplain _]]].
  pose proof (TagShape_not_nil t Ht) as Htne.
  induction s as [s IH] using length_ind.
  destruct (substitute_cases keys s)
    as [[-> ->]
       | [(k & dk & rest & -> & Hk & Hlen & ->)
         | (c & s' & -> & Hk & Hsub)]].
  - apply replaceAll_nil; exact Htne.
  - destruct (keyAt_Some _ _ _ _ Hk) as [Hlk [Hkk Hsk]].
    destruct (lookup_ok _ _ Hlk) as [_ [_ [Hpk _]]].
    rewrite (replaceAll_plain t (emoji d) Ht _ _ Hpk).
    rewrite (IH rest Hlen (NoShare_suffix _ _ Hns)).
    symmetry. apply substitute_hit, keyAt_the; auto.
    rewrite Hkk. apply orb_true_r.
  - destruct (startsWith (c :: s') t) eqn:Hit.
    + destruct (hit_split t Ht _ Hit) as [rest [Hr Hlen]].
      rewrite Hr in Hk, Hns |- *.
      rewrite (substitute_copy keys t rest Ht Hns Hk).
      rewrite (replaceAll_hit _ _ _ Htne).
      rewrite (IH rest) by (rewrite <- ?Hr; eauto using NoShare_suffix).
      symmetry. apply substitute_hit, keyAt_the; auto.
      * rewrite eqb_refl. reflexivity.
      * apply startsWith_app.
    + assert (keyAt (fun k => JS.eqb k t || keys k) (c :: s') = None) as Hk'.
      { destruct (keyAt (fun k => JS.eqb k t || keys k) (c :: s'))
          as [[k dk]|] eqn:E; [exfalso | reflexivity].
        destruct (keyAt_Some _ _ _ _ E) as [Hlk [Hkk Hsk]].
        apply orb_true_iff in Hkk. destruct Hkk as [Hkk|Hkk].
        - apply eqb_eq in Hkk; subst k. congruence.
        - rewrite (keyAt_None _ _ _ _ Hk Hlk Hkk) in Hsk. discriminate. }
      pose proof (NoShare_suffix [c] s' Hns) as Hns'.
      rewrite (substitute_miss _ _ _ Hk').
      rewrite <- (IH s' (Nat.lt_succ_diag_r _) Hns').
      rewrite Hsub. apply replaceAll_miss.
      rewrite <- Hsub.
      destruct (startsWith (substitute_with keys (c :: s')) t) eqn:E;
        [|reflexivity].
      apply startsWith_substitute in E; [congruence|].
      apply TagShape_tagText; exact Ht.
Qed.

Lemma fold_substitute (tokens : list jsstring) (keys : jsstring -> bool)
  (s : jsstring) (ty : option string) :
  NoShare s ->
  fst (fold_left enrich_step tokens (substitute_with keys s, ty)) =
  substitute_with (fun k => existsb (JS.eqb k) tokens || keys k) s.
Proof.
  intros Hns. revert keys ty.
  induction tokens as [|a tokens IH]; intros keys ty; cbn [fold_left].
  - apply substitute_ext; reflexivity.
  - destruct (lookup a) as [d|] eqn:E.
    + rewrite (enrich_step_known _ _ _ _ E), replaceAll_substitute, IH by auto.
      apply substitute_ext. intros k _ _ _. cbn [existsb].
      destruct (JS.eqb k a), (existsb (JS.eqb k) tokens); reflexivity.
    + rewrite enrich_step_unknown, IH by exact E.
      apply substitute_ext. intros k d Hl _. cbn [existsb].
      destruct (JS.eqb k a) eqn:Ea; [|reflexivity].
      apply eqb_eq in Ea; subst k. congruence.
Qed.

(** Where no two tokens share a colon, the new title is the title with
    every occurrence of a key of the table replaced by its emoji. *)
Lemma enrich_substitute (title : jsstring) :
  NoShare title -> fst (enrich title) = substitute title.
Proof.
  intros Hns. unfold enrich, substitute.
  rewrite <- (substitute_none title) at 2.
  rewrite fold_substitute by exact Hns.
  apply substitute_ext. intros k d Hl Hin.
  rewrite orb_false_r. apply existsb_exists. exists k. split; [|apply eqb_refl].
  apply matchAll_complete; auto. destruct (lookup_ok _ _ Hl) as [Ht _]; auto.
Qed.

(** ** The scenarios of the specification *)

Example morning_run_enriched :
  enrich (u16 "Morning :run: :check:") =
  (u16 "Morning " ++ man_running ++ u16 " " ++ check_mark, Some "RUN"%string).
Proof. vm_compute. reflexivity. Qed.

Example morning_run_handled :
  let (r, w) := onCalendarUpdate trigger morning_run in
  r = inr tt /\
  calls w =
    [SetTitle "e3"%string
       (u16 "Morning " ++ man_running ++ u16 " " ++ check_mark);
     SetColor "e3"%string GRAY] /\
  option_map color (events w "e3"%string) = Some (Some GRAY).
Proof. vm_compute. auto. Qed.

Example team_dinner_skipped :
  onCalendarUpdate trigger team_dinner = (inr tt, team_dinner).
Proof. vm_compute. reflexivity. Qed.

(** ** The title enricher *)

Lemma noSubstring_NoShare (title : jsstring) :
  noSubstring doubleTag title = true -> NoShare title.
Proof. intros H; exact (proj1 (noSubstring_iff _ _) H). Qed.

(** Where no two tokens share a colon, no key of the table is left in the
    new title. *)
Lemma enrich_no_key_left (title tag : jsstring) (d : TagData) :
  NoShare title -> lookup tag = Some d ->
  includes (fst (enrich title)) tag = false.
Proof.
  intros Hns Hl. destruct (lookup_ok _ _ Hl) as [Ht _].
  destruct (includes title tag) eqn:Hinc.
  - apply (fold_removes _ _ _ _ d); [|exact Hl].
    apply matchAll_complete; assumption.
  - apply fold_absent; [apply TagShape_tagText; exact Ht | exact Hinc].
Qed.

(** C1, as stated, fails: the title [":a:run:"] contains the key [":run:"],
    but the scan matches [":a:"] and resumes after its closing colon, so
    [":run:"] is no token and the title comes back unchanged, whereas
    replacing every occurrence of the key gives [":a"] and the emoji. *)
Lemma enrich_misses_unscanned_tag :
  lookup (u16 ":run:") =
    Some {| emoji := man_running; eventType := Some "RUN"%string |} /\
  includes (u16 ":a:run:") (u16 ":run:") = true /\
  matchAll (u16 ":a:run:") = [u16 ":a:"] /\
  fst (enrich (u16 ":a:run:")) = u16 ":a:run:" /\
  substitute (u16 ":a:run:") = u16 ":a" ++ man_running.
Proof. vm_compute. repeat split. Qed.

(** C1, amended: in a title where no two tokens of the tag syntax share a
    colon (no substring matches [:[a-z$]+:[a-z$]+:]), for every key of the
    table that the title contains, the new title is the title with every
    occurrence of that key, and of every other key of the table, replaced
    by the emoji of the key and every other code unit unchanged; no
    occurrence of the key is left. *)
Theorem enrich_replaces_every_tag (title tag : jsstring) (d : TagData) :
  noSubstring doubleTag title = true ->
  lookup tag = Some d ->
  includes title tag = true ->
  fst (enrich title) = substitute title /\
  includes (fst (enrich title)) tag = false.
Proof.
  intros Hns Hl _. apply noSubstring_NoShare in Hns. split.
  - apply enrich_substitute; exact Hns.
  - apply (enrich_no_key_left title tag d); assumption.
Qed.

Lemma enrich_replaces_every_tag_witness :
  noSubstring doubleTag (u16 "Morning :run: :check:") = true /\
  includes (u16 "Morning :run: :check:") (u16 ":run:") = true /\
  fst (enrich (u16 "Morning :run: :check:")) =
    substitute (u16 "Morning :run: :check:") /\
  includes (fst (enrich (u16 "Morning :run: :check:"))) (u16 ":run:") = false.
Proof.
  split; [vm_compute; reflexivity|]. split; [vm_compute; reflexivity|].
  apply (enrich_replaces_every_tag (u16 "Morning :run: :check:") (u16 ":run:")
           {| emoji := man_running; eventType := Some "RUN"%string |});
    vm_compute; reflexivity.
Defined.

(** C3, as stated, fails: in [":a:run:b:gym: :run:"] the scan finds [":a:"],
    [":b:"] and the last [":run:"]; replacing [":run:"] also replaces its
    first occurrence and frees the colon before [gym], so the second pass
    finds [":gym:"] and changes the title again. *)
Lemma enrich_second_pass_changes_title :
  matchAll (u16 ":a:run:b:gym: :run:") = [u16 ":a:"; u16 ":b:"; u16 ":run:"] /\
  fst (enrich (u16 ":a:run:b:gym: :run:")) =
    u16 ":a" ++ man_running ++ u16 "b:gym: " ++ man_running /\
  fst (enrich (fst (enrich (u16 ":a:run:b:gym: :run:")))) =
    u16 ":a" ++ man_running ++ u16 "b" ++ flexed_biceps ++ u16 " "
      ++ man_running /\
  JS.eqb (fst (enrich (fst (enrich (u16 ":a:run:b:gym: :run:")))))
         (fst (enrich (u16 ":a:run:b:gym: :run:"))) = false.
Proof. vm_compute. repeat split. Qed.

(** C3, amended: for every title where no two tokens of the tag syntax
    share a colon, enriching the new title again leaves it as it is. *)
Theorem enrich_idempotent (title : jsstring) :
  noSubstring doubleTag title = true ->
  fst (enrich (fst (enrich title))) = fst (enrich title).
Proof.
  intros Hns. apply noSubstring_NoShare in Hns.
  unfold enrich at 1. rewrite fold_unknown; [reflexivity|].
  intros token Hin. exact (second_scan_unknown title token Hns Hin).
Qed.

Lemma enrich_idempotent_witness :
  noSubstring doubleTag (u16 "Team :dinner: :star: :x:") = true /\
  fst (enrich (fst (enrich (u16 "Team :dinner: :star: :x:")))) =
  fst (enrich (u16 "Team :dinner: :star: :x:")).
Proof.
  split; [vm_compute; reflexivity|].
  apply (enrich_idempotent (u16 "Team :dinner: :star: :x:")).
  vm_compute; reflexivity.
Defined.

(** C4, as stated, fails in its last part: in [":run: :a:run:gym:"] the scan
    finds [":run:"], [":a:"] and [":gym:"], and the category is the one of
    [":run:"]; but replacing [":run:"] also replaces its second occurrence,
    whose closing colon opens [":gym:"], so the later categorized tag is not
    replaced by its emoji: [gym:] stays. *)
Lemma later_tag_not_replaced :
  matchAll (u16 ":run: :a:run:gym:") = [u16 ":run:"; u16 ":a:"; u16 ":gym:"] /\
  lookup (u16 ":gym:") =
    Some {| emoji := flexed_biceps; eventType := Some "GYM"%string |} /\
  enrich (u16 ":run: :a:run:gym:") =
    (man_running ++ u16 " :a" ++ man_running ++ u16 "gym:",
     Some "RUN"%string) /\
  includes (fst (enrich (u16 ":run: :a:run:gym:"))) flexed_biceps = false.
Proof. vm_compute. repeat split. Qed.

(** C4, amended: for every title, the category is the one of the first
    token, in the order of the scan, that the table knows with a category,
    whatever the later tokens; the later categorized tokens are replaced
    all the same, so that none of them occurs in the new title, and where
    no two tokens of the tag syntax share a colon each of their occurrences
    is replaced by its emoji. *)
Theorem enrich_category_leftmost (title : jsstring) :
  snd (enrich title) = leftmost_category (matchAll title) /\
  (forall tag d,
     In tag (matchAll title) -> lookup tag = Some d ->
     includes (fst (enrich title)) tag = false) /\
  (noSubstring doubleTag title = true ->
   fst (enrich title) = substitute title).
Proof.
  split; [|split].
  - unfold enrich. rewrite fold_category by (left; reflexivity). reflexivity.
  - intros tag d Hin Hl. exact (fold_removes _ _ _ _ d Hin Hl).
  - intros Hns. apply enrich_substitute, noSubstring_NoShare, Hns.
Qed.

Lemma enrich_category_leftmost_witness :
  snd (enrich (u16 ":star: :cena: then :gym:")) = Some "DINNER"%string /\
  includes (fst (enrich (u16 ":star: :cena: then :gym:"))) (u16 ":gym:")
    = false /\
  fst (enrich (u16 ":star: :cena: then :gym:")) =
    star ++ u16 " " ++ poultry_leg ++ u16 " then " ++ flexed_biceps.
Proof.
  pose proof (enrich_category_leftmost (u16 ":star: :cena: then :gym:"))
    as [Hcat [Hgone Hsub]].
  split; [rewrite Hcat; vm_compute; reflexivity|].
  split.
  - apply (Hgone (u16 ":gym:")
             {| emoji := flexed_biceps; eventType := Some "GYM"%string |});
      vm_compute; auto.
  - rewrite Hsub; vm_compute; reflexivity.
Defined.

(** C8: a title with no substring of the tag syntax [:[a-z$]+:] comes back
    unchanged and with no category. *)
Theorem enrich_no_tag_like (title : jsstring) :
  noSubstring tagLike title = true -> enrich title = (title, None).
Proof.
  intros H. unfold enrich. rewrite (noSubstring_tagLike title H). reflexivity.
Qed.

Lemma enrich_no_tag_like_witness :
  noSubstring tagLike (u16 "Lunch at 12:30, room: B (:-) ::") = true /\
  enrich (u16 "Lunch at 12:30, room: B (:-) ::") =
  (u16 "Lunch at 12:30, room: B (:-) ::", None).
Proof.
  split; [vm_compute; reflexivity|].
  apply (enrich_no_tag_like (u16 "Lunch at 12:30, room: B (:-) ::")).
  vm_compute; reflexivity.
Defined.

(** ** The colour policy *)

Lemma colorFor_other (s : string) :
  ~ In s categories -> colorFor (Some s) = None.
Proof.
  intros H. cbn [colorFor].
  repeat match goal with
  | |- context [String.eqb s ?c] =>
      destruct (String.eqb_spec s c) as [->|_];
      [exfalso; apply H; simpl; tauto|]
  end.
  reflexivity.
Qed.

(** C2, as stated, fails for the category [null]: the guard of
    [_processEventByType] throws [EventTypeNull] before the [switch], which
    alone would leave the colour [null]. *)
Lemma null_category_raises :
  colorFor None = None /\
  _processEventByType (Some "e3"%string) None morning_run =
  (inl EventTypeNull, morning_run).
Proof. split; reflexivity. Qed.

(** C2, amended: the [switch] gives each of the six categories its colour
    (gray, gray, yellow, blue, red, pale red) and every other value, [null]
    included, none; with an event and a category that is not [null] (a
    truthy one) [_processEventByType] ends without error, having set that
    colour for the six and changed nothing for any other; a [null] category
    does not reach the [switch], it raises [EventTypeNull]. *)
Theorem colorFor_total :
  (colorFor (Some "RUN"%string) = Some GRAY /\
   colorFor (Some "BIKE"%string) = Some GRAY /\
   colorFor (Some "BIRTHDAY"%string) = Some YELLOW /\
   colorFor (Some "DINNER"%string) = Some BLUE /\
   colorFor (Some "HEALTH"%string) = Some RED /\
   colorFor (Some "GYM"%string) = Some PALE_RED) /\
  (forall ty, ~ In ty (map Some categories) -> colorFor ty = None) /\
  (forall event ty w, truthy ty = true ->
     _processEventByType (Some event) ty w =
     match colorFor ty with
     | Some c => setColor event c w
     | None => (inr tt, w)
     end) /\
  (forall event w,
     _processEventByType (Some event) None w = (inl EventTypeNull, w)).
Proof.
  split; [repeat split|]. split; [|split].
  - intros [s|] H; [|reflexivity].
    apply colorFor_other. intros Hin. apply H, in_map, Hin.
  - intros event ty w Hty. unfold _processEventByType. rewrite Hty.
    cbn [negb]. destruct (colorFor ty); reflexivity.
  - reflexivity.
Qed.

Lemma colorFor_total_witness :
  colorFor (Some "PARTY"%string) = None /\
  _processEventByType (Some "e3"%string) (Some "PARTY"%string) morning_run =
    (inr tt, morning_run) /\
  calls (snd (_processEventByType (Some "e3"%string) (Some "GYM"%string)
                morning_run)) = [SetColor "e3"%string PALE_RED].
Proof.
  pose proof colorFor_total as [_ [Hother [Hrun _]]].
  split; [|split].
  - apply Hother. simpl. intros H.
    repeat (destruct H as [H|H]; [discriminate|]). exact H.
  - rewrite Hrun by reflexivity. reflexivity.
  - rewrite Hrun by reflexivity. reflexivity.
Defined.

(** ** The guards of [_processEventByType] *)

(** The event types of the table are [null] or truthy: for them, and so for
    every value that [onCalendarUpdate] can pass, falsy is [null]. *)
Lemma table_eventType_falsy (token : jsstring) (d : TagData) :
  lookup token = Some d ->
  (truthy (eventType d) = false <-> eventType d = None).
Proof.
  intros H. destruct (lookup_ok _ _ H) as [_ [_ [_ [E|E]]]]; rewrite E.
  - split; reflexivity.
  - split; [discriminate|]. intros E'. rewrite E' in E. discriminate.
Qed.

(** C10: the check of the event comes first: without an event
    [_processEventByType] raises [EventNull] whatever the event type, also
    when both are missing; and it raises [EventTypeNull] exactly when there
    is an event and the event type is missing (falsy: [null], or the empty
    string that no entry of the table has). *)
Theorem EventNull_before_EventTypeNull (event : option CalendarEvent)
  (ty : option string) (w : World) :
  _processEventByType None ty w = (inl EventNull, w) /\
  _processEventByType None None w = (inl EventNull, w) /\
  (fst (_processEventByType event ty w) = inl EventTypeNull <->
   event <> None /\ truthy ty = false) /\
  (event <> None -> _processEventByType event None w = (inl EventTypeNull, w)).
Proof.
  split; [reflexivity|]. split; [reflexivity|]. split; [split|].
  - destruct event as [ev|]; [|discriminate]. cbn [_processEventByType].
    destruct (truthy ty) eqn:E; cbn [negb].
    + destruct (colorFor ty); discriminate.
    + intros _. split; [discriminate | reflexivity].
  - intros [Hev Hty]. destruct event as [ev|]; [|congruence].
    cbn [_processEventByType]. rewrite Hty. reflexivity.
  - intros Hev. destruct event as [ev|]; [reflexivity | congruence].
Qed.

Lemma EventNull_before_EventTypeNull_witness :
  _processEventByType (Some "e3"%string) None morning_run =
  (inl EventTypeNull, morning_run).
Proof.
  apply (EventNull_before_EventTypeNull (Some "e3"%string) None morning_run).
  discriminate.
Defined.

(** ** The resolver of the last edited event *)

Lemma at_index_last {A} (l : list A) (x : A) :
  at_index (l ++ [x]) (Z.of_nat (List.length (l ++ [x])) - 1) = Some x.
Proof.
  unfold at_index. rewrite length_app. cbn [List.length].
  destruct (Z.ltb_spec (Z.of_nat (List.length l + 1) - 1) 0) as [H|_]; [lia|].
  replace (Z.to_nat (Z.of_nat (List.length l + 1) - 1)) with (List.length l)
    by lia.
  rewrite nth_error_app2, Nat.sub_diag by lia. reflexivity.
Qed.

(** The resolver, by the answer of the listing. *)
Lemma _getLastEditedEvent_cases (calendarId : string) (w : World) :
  _getLastEditedEvent calendarId w =
  match Events_list w calendarId (options (clock w)) with
  | inl message => (inl (ServiceError message), w)
  | inr answer =>
      match items answer with
      | None =>
          (inl (NoEventFound "Calendar.Events.list() returned zero events"), w)
      | Some its =>
          match at_index its (Z.of_nat (List.length its) - 1) with
          | Some (Some event) => getEventById (id event) w
          | _ =>
              (inl (NoEventFound "The last event in events.items is null"), w)
          end
      end
  end.
Proof.
  unfold _getLastEditedEvent, bind, getTime, Calendar_Events_list.
  destruct (Events_list w calendarId (options (clock w))) as [m|answer];
    [reflexivity|].
  destruct (items answer) as [its|]; [|reflexivity].
  destruct (at_index its (Z.of_nat (List.length its) - 1)) as [[event|]|];
    reflexivity.
Qed.

Lemma getEventById_returns (i : string) (w : World) :
  exists r, getEventById i w = (inr r, w).
Proof. unfold getEventById. destruct (events w i); eexists; reflexivity. Qed.

(** The resolver reads the calendar and changes nothing. *)
Lemma _getLastEditedEvent_reads (calendarId : string) (w : World) :
  snd (_getLastEditedEvent calendarId w) = w.
Proof.
  rewrite _getLastEditedEvent_cases.
  destruct (Events_list w calendarId (options (clock w))) as [m|answer];
    [reflexivity|].
  destruct (items answer) as [its|]; [|reflexivity].
  destruct (at_index its (Z.of_nat (List.length its) - 1)) as [[event|]|];
    try reflexivity.
  destruct (getEventById_returns (id event) w) as [r ->]. reflexivity.
Qed.

(** C5: the resolver fails with [NoEventFound] exactly when the listing
    answers with no items (none at all, or an empty array) or with items
    whose last slot is [null]; for every other answer, and when the listing
    itself fails, it does not. *)
Theorem NoEventFound_iff (calendarId : string) (w : World) :
  is_NoEventFound (fst (_getLastEditedEvent calendarId w)) = true <->
  exists answer,
    Events_list w calendarId (options (clock w)) = inr answer /\
    (items answer = None \/ items answer = Some [] \/
     exists its, items answer = Some (its ++ [None])).
Proof.
  rewrite _getLastEditedEvent_cases.
  destruct (Events_list w calendarId (options (clock w))) as [m|answer].
  - split; [discriminate | intros [a [H _]]; discriminate].
  - destruct (items answer) as [its|] eqn:Eits.
    + destruct its as [|x its'] using rev_ind.
      * split; [|reflexivity]. intros _. exists answer. auto.
      * clear IHits'. rewrite at_index_last. destruct x as [event|].
        -- destruct (getEventById_returns (id event) w) as [r ->].
           split; [discriminate|].
           intros [a [[= <-] [H | [H | [l H]]]]]; rewrite Eits in H;
             try discriminate.
           ++ injection H as H. destruct its'; discriminate.
           ++ injection H as H. apply app_inj_tail in H.
              destruct H; discriminate.
        -- split; [|reflexivity]. intros _. exists answer.
           split; [reflexivity|]. right; right. exists its'. exact Eits.
    + split; [|reflexivity]. intros _. exists answer. auto.
Qed.

(** C6: when the listing answers with items whose last slot holds an
    event, the resolver returns what [getEventById] gives for the id of
    that last item; with three events, for the third. *)
Theorem last_item_resolved (calendarId : string) (w : World)
  (answer : Events) (its : list (option Item)) (last : Item) :
  Events_list w calendarId (options (clock w)) = inr answer ->
  items answer = Some (its ++ [Some last]) ->
  _getLastEditedEvent calendarId w = getEventById (id last) w.
Proof.
  intros Hlist Hitems.
  rewrite _getLastEditedEvent_cases, Hlist, Hitems, at_index_last.
  reflexivity.
Qed.

Lemma last_item_resolved_witness :
  _getLastEditedEvent "me@example.com" morning_run =
  (inr (Some "e3"%string), morning_run).
Proof.
  exact (last_item_resolved "me@example.com" morning_run
           {| items := Some [Some {| id := "e1" |}; Some {| id := "e2" |};
                             Some {| id := "e3" |}] |}
           [Some {| id := "e1" |}; Some {| id := "e2" |}] {| id := "e3" |}
           eq_refl eq_refl).
Defined.

(** ** The handler *)

(** C7: when the description of the resolved event contains [":skip:"], the
    handler returns with the world as it found it: it has called neither
    [setTitle] nor [setColor]. *)
Theorem skip_marker_no_write (triggerData : TriggerData) (w : World)
  (event : CalendarEvent) (d : EventData) :
  fst (_getLastEditedEvent (calendarId triggerData) w) = inr (Some event) ->
  events w event = Some d ->
  includes (description d) skip_marker = true ->
  onCalendarUpdate triggerData w = (inr tt, w) /\
  calls (snd (onCalendarUpdate triggerData w)) = calls w.
Proof.
  intros Hres Hev Hskip.
  assert (onCalendarUpdate triggerData w = (inr tt, w)) as H;
    [|rewrite H; split; reflexivity].
  unfold onCalendarUpdate.
  pose proof (_getLastEditedEvent_reads (calendarId triggerData) w) as Hw.
  destruct (_getLastEditedEvent (calendarId triggerData) w) as [r w'].
  cbn [fst snd] in Hres, Hw. subst r w'.
  unfold bind, getTitle, getDescription, read. rewrite Hev.
  cbv beta iota. rewrite Hev. cbv beta iota. rewrite Hskip. reflexivity.
Qed.

Lemma skip_marker_no_write_witness :
  onCalendarUpdate trigger team_dinner = (inr tt, team_dinner) /\
  calls (snd (onCalendarUpdate trigger team_dinner)) = [].
Proof.
  apply (skip_marker_no_write trigger team_dinner "e3"%string
           (an_event "Team :dinner:" "agenda ... :skip:"));
    vm_compute; reflexivity.
Defined.

(** ** The write of the title *)

Lemma _updateEventTitleAndGetType_cases (event : CalendarEvent) (w : World)
  (d : EventData) :
  events w event = Some d ->
  _updateEventTitleAndGetType event w =
  if JS.eqb (fst (enrich (title d))) (title d)
  then (inr (snd (enrich (title d))), w)
  else
    let (r, w') := setTitle event (fst (enrich (title d))) w in
    (inr (snd (enrich (title d))), w').
Proof.
  intros Hev. unfold _updateEventTitleAndGetType, bind, getTitle, read.
  rewrite Hev. destruct (enrich (title d)) as [newTitle ty]. cbn [fst snd].
  destruct (JS.eqb newTitle (title d)); reflexivity.
Qed.

(** C9: [_updateEventTitleAndGetType] calls [setTitle], with the new title,
    if and only if the new title differs from the title of the event; when
    the scan finds no token that the table knows, it leaves the world, and
    so the title held by the service, as it was. *)
Theorem setTitle_iff_title_differs (event : CalendarEvent) (w : World)
  (d : EventData) :
  events w event = Some d ->
  (fst (enrich (title d)) <> title d ->
   calls (snd (_updateEventTitleAndGetType event w)) =
   calls w ++ [SetTitle event (fst (enrich (title d)))]) /\
  (fst (enrich (title d)) = title d ->
   snd (_updateEventTitleAndGetType event w) = w) /\
  ((forall token, In token (matchAll (title d)) -> lookup token = None) ->
   snd (_updateEventTitleAndGetType event w) = w).
Proof.
  intros Hev. rewrite (_updateEventTitleAndGetType_cases event w d Hev).
  assert (fst (enrich (title d)) = title d ->
          snd (if JS.eqb (fst (enrich (title d))) (title d)
               then (inr (snd (enrich (title d))), w)
               else
                 let (_, w') := setTitle event (fst (enrich (title d))) w in
                 (@inr exn _ (snd (enrich (title d))), w')) = w) as Hsame.
  { intros E. apply eqb_eq in E. rewrite E. reflexivity. }
  split; [|split].
  - intros Hne. apply eqb_neq in Hne. rewrite Hne. reflexivity.
  - exact Hsame.
  - intros Hnone. apply Hsame. unfold enrich.
    rewrite (fold_unknown _ _ Hnone). reflexivity.
Qed.

Lemma setTitle_iff_title_differs_witness :
  calls (snd (_updateEventTitleAndGetType "e3"%string morning_run)) =
  [SetTitle "e3"%string
     (u16 "Morning " ++ man_running ++ u16 " " ++ check_mark)] /\
  snd (_updateEventTitleAndGetType "e2"%string morning_run) = morning_run.
Proof.
  split.
  - refine (proj1 (setTitle_iff_title_differs "e3"%string morning_run
                     (an_event "Morning :run: :check:" EmptyString) eq_refl) _).
    vm_compute. discriminate.
  - refine (proj1 (proj2 (setTitle_iff_title_differs "e2"%string morning_run
                            (an_event "Lunch" EmptyString) eq_refl)) _).
    vm_compute. reflexivity.
Defined.

(** ** Further properties: the outcomes of the handler *)

Lemma enrich_type_ok (title0 : jsstring) :
  snd (enrich title0) = None \/ truthy (snd (enrich title0)) = true.
Proof.
  unfold enrich. rewrite fold_category by (left; reflexivity). cbn [truthy].
  induction (matchAll title0) as [|token tokens IH]; [left; reflexivity|].
  cbn [leftmost_category]. destruct (lookup token) as [d|] eqn:E; [|exact IH].
  destruct (lookup_ok _ _ E) as [_ [_ [_ Hd]]].
  destruct d as [em [c|]]; cbn [eventType] in *; [|exact IH].
  right. destruct Hd as [Hd|Hd]; [discriminate | exact Hd].
Qed.

(** The four ways the resolver ends; it leaves the world as it is. *)
Lemma resolver_outcome (cid : string) (w : World) :
  (exists m, Events_list w cid (options (clock w)) = inl m /\
     _getLastEditedEvent cid w = (inl (ServiceError m), w)) \/
  (exists m, _getLastEditedEvent cid w = (inl (NoEventFound m), w)) \/
  (exists answer its last,
     Events_list w cid (options (clock w)) = inr answer /\
     items answer = Some (its ++ [Some last]) /\
     events w (id last) = None /\
     _getLastEditedEvent cid w = (inr None, w)) \/
  (exists answer its last d,
     Events_list w cid (options (clock w)) = inr answer /\
     items answer = Some (its ++ [Some last]) /\
     events w (id last) = Some d /\
     _getLastEditedEvent cid w = (inr (Some (id last)), w)).
Proof.
  rewrite _getLastEditedEvent_cases.
  destruct (Events_list w cid (options (clock w))) as [m|answer] eqn:El.
  - left. exists m. auto.
  - right. destruct (items answer) as [its|] eqn:Ei.
    + destruct its as [|x its' _] using rev_ind.
      * left. eexists. reflexivity.
      * rewrite at_index_last. destruct x as [last|].
        -- right. unfold getEventById.
           destruct (events w (id last)) as [d|] eqn:Ev.
           ++ right. exists answer, its', last, d. auto.
           ++ left. exists answer, its', last. auto.
        -- left. eexists. reflexivity.
    + left. eexists. reflexivity.
Qed.

Lemma process_typed (event : CalendarEvent) (ty : option string) (w : World) :
  ty = None \/ truthy ty = true ->
  (if truthy ty then _processEventByType (Some event) ty else ret tt) w =
  (inr tt,
   match colorFor ty with
   | Some c => snd (setColor event c w)
   | None => w
   end).
Proof.
  intros [-> | H]; [reflexivity|]. rewrite H. unfold _processEventByType.
  rewrite H. cbn [negb]. destruct (colorFor ty); reflexivity.
Qed.

(** The handler on a resolved event: nothing with the skip marker, the
    enrichment without. *)
Lemma handler_on_event (triggerData : TriggerData) (w : World)
  (event : CalendarEvent) (d : EventData) :
  _getLastEditedEvent (calendarId triggerData) w = (inr (Some event), w) ->
  events w event = Some d ->
  onCalendarUpdate triggerData w =
  (inr tt,
   if includes (description d) skip_marker then w
   else enriched_world event d w).
Proof.
  intros Hres Hev. unfold onCalendarUpdate. rewrite Hres.
  unfold bind at 1 2. unfold getTitle, getDescription, read. rewrite Hev.
  cbv beta iota. rewrite Hev. cbv beta iota.
  destruct (includes (description d) skip_marker); [reflexivity|].
  unfold bind. rewrite (_updateEventTitleAndGetType_cases event w d Hev).
  unfold enriched_world.
  destruct (JS.eqb (fst (enrich (title d))) (title d)).
  - apply process_typed, enrich_type_ok.
  - cbn [setTitle snd]. apply process_typed, enrich_type_ok.
Qed.

Lemma enriched_world_calls (event : CalendarEvent) (d : EventData)
  (w : World) :
  calls (enriched_world event d w) =
  calls w ++
  (if JS.eqb (fst (enrich (title d))) (title d) then []
   else [SetTitle event (fst (enrich (title d)))]) ++
  match colorFor (snd (enrich (title d))) with
  | Some c => [SetColor event c]
  | None => []
  end.
Proof.
  unfold enriched_world.
  destruct (JS.eqb (fst (enrich (title d))) (title d)),
    (colorFor (snd (enrich (title d)))); cbn;
    rewrite ?app_nil_r, <- ?app_assoc; reflexivity.
Qed.

Lemma enriched_world_event (event : CalendarEvent) (d : EventData)
  (w : World) :
  events w event = Some d ->
  events (enriched_world event d w) event =
  Some {| title := fst (enrich (title d));
          description := description d;
          color := match colorFor (snd (enrich (title d))) with
                   | Some c => Some c
                   | None => color d
                   end |}.
Proof.
  intros Hev. unfold enriched_world.
  destruct (JS.eqb (fst (enrich (title d))) (title d)) eqn:E.
  - apply eqb_eq in E. rewrite E.
    destruct (colorFor (snd (enrich (title d)))); cbn;
      rewrite ?String.eqb_refl, Hev; destruct d; reflexivity.
  - destruct (colorFor (snd (enrich (title d)))); cbn;
      rewrite ?String.eqb_refl, Hev; reflexivity.
Qed.

Lemma enriched_world_others (event : CalendarEvent) (d : EventData)
  (w : World) (i : CalendarEvent) :
  i <> event -> events (enriched_world event d w) i = events w i.
Proof.
  intros Hi. apply String.eqb_neq in Hi. unfold enriched_world.
  destruct (JS.eqb (fst (enrich (title d))) (title d)),
    (colorFor (snd (enrich (title d)))); cbn; rewrite ?Hi; reflexivity.
Qed.


Lemma enriched_world_service (event : CalendarEvent) (d : EventData)
  (w : World) :
  clock (enriched_world event d w) = clock w /\
  Events_list (enriched_world event d w) = Events_list w.
Proof.
  unfold enriched_world.
  destruct (JS.eqb (fst (enrich (title d))) (title d)),
    (colorFor (snd (enrich (title d)))); split; reflexivity.
Qed.

(** X1: when the listing answers with no items, with an empty array or with
    a last slot that is [null], the handler catches the [NoEventFound] of
    the resolver and returns normally, the world unchanged. *)
Theorem handler_ignores_missing_event (triggerData : TriggerData)
  (w : World) (answer : Events) :
  Events_list w (calendarId triggerData) (options (clock w)) = inr answer ->
  items answer = None \/ items answer = Some [] \/
    (exists its, items answer = Some (its ++ [None])) ->
  onCalendarUpdate triggerData w = (inr tt, w).
Proof.
  intros Hl Hi. unfold onCalendarUpdate.
  rewrite _getLastEditedEvent_cases, Hl.
  destruct Hi as [-> | [-> | [its ->]]]; [reflexivity | reflexivity |].
  rewrite at_index_last. reflexivity.
Qed.

Lemma handler_ignores_missing_event_witness :
  onCalendarUpdate trigger
    (calendar_answering
       (inr {| items := Some [Some {| id := "e1" |}; None] |}))
  = (inr tt,
     calendar_answering
       (inr {| items := Some [Some {| id := "e1" |}; None] |})).
Proof.
  apply (handler_ignores_missing_event trigger
           (calendar_answering
              (inr {| items := Some [Some {| id := "e1" |}; None] |}))
           {| items := Some [Some {| id := "e1" |}; None] |} eq_refl).
  right; right. exists [Some {| id := "e1" |}]. reflexivity.
Defined.

(** X2: an error of the listing is no [NoEventFound]: the handler throws it
    again, and has written nothing. *)
Theorem handler_rethrows_service_error (triggerData : TriggerData)
  (w : World) (message : string) :
  Events_list w (calendarId triggerData) (options (clock w)) = inl message ->
  onCalendarUpdate triggerData w = (inl (ServiceError message), w).
Proof.
  intros Hl. unfold onCalendarUpdate.
  rewrite _getLastEditedEvent_cases, Hl. reflexivity.
Qed.

Lemma handler_rethrows_service_error_witness :
  onCalendarUpdate trigger
    (calendar_answering (inl "Rate Limit Exceeded"%string))
  = (inl (ServiceError "Rate Limit Exceeded"),
     calendar_answering (inl "Rate Limit Exceeded"%string)).
Proof.
  exact (handler_rethrows_service_error trigger
           (calendar_answering (inl "Rate Limit Exceeded"%string))
           "Rate Limit Exceeded" eq_refl).
Defined.

(** X3: when the id of the last item names no event for
    [CalendarApp.getEventById], the resolver returns [null] and the handler
    ends in the [TypeError] of [event.getTitle()], having written nothing. *)
Theorem handler_TypeError_on_unknown_id (triggerData : TriggerData)
  (w : World) (answer : Events) (its : list (option Item)) (last : Item) :
  Events_list w (calendarId triggerData) (options (clock w)) = inr answer ->
  items answer = Some (its ++ [Some last]) ->
  events w (id last) = None ->
  _getLastEditedEvent (calendarId triggerData) w = (inr None, w) /\
  onCalendarUpdate triggerData w = (inl TypeError, w).
Proof.
  intros Hl Hi Hev.
  assert (_getLastEditedEvent (calendarId triggerData) w = (inr None, w)) as H.
  { rewrite _getLastEditedEvent_cases, Hl, Hi, at_index_last.
    unfold getEventById. rewrite Hev. reflexivity. }
  split; [exact H|]. unfold onCalendarUpdate. rewrite H. reflexivity.
Qed.

Lemma handler_TypeError_on_unknown_id_witness :
  onCalendarUpdate trigger
    (calendar_answering (inr {| items := Some [Some {| id := "gone" |}] |}))
  = (inl TypeError,
     calendar_answering (inr {| items := Some [Some {| id := "gone" |}] |})).
Proof.
  apply (handler_TypeError_on_unknown_id trigger
           (calendar_answering
              (inr {| items := Some [Some {| id := "gone" |}] |}))
           {| items := Some [Some {| id := "gone" |}] |} []
           {| id := "gone" |} eq_refl eq_refl eq_refl).
Defined.

(** X4: on a resolved event without the skip marker the handler returns
    normally, and its calls of the write service are, in this order, one
    [setTitle] with the new title when it differs from the title, and one
    [setColor] when the category has a colour. *)
Theorem handler_calls (triggerData : TriggerData) (w : World)
  (event : CalendarEvent) (d : EventData) :
  fst (_getLastEditedEvent (calendarId triggerData) w) = inr (Some event) ->
  events w event = Some d ->
  includes (description d) skip_marker = false ->
  fst (onCalendarUpdate triggerData w) = inr tt /\
  calls (snd (onCalendarUpdate triggerData w)) =
  calls w ++
  (if JS.eqb (fst (enrich (title d))) (title d) then []
   else [SetTitle event (fst (enrich (title d)))]) ++
  match colorFor (snd (enrich (title d))) with
  | Some c => [SetColor event c]
  | None => []
  end.
Proof.
  intros Hres Hev Hskip.
  pose proof (_getLastEditedEvent_reads (calendarId triggerData) w) as Hw.
  destruct (_getLastEditedEvent (calendarId triggerData) w) as [r w'] eqn:E.
  cbn [fst snd] in Hres, Hw. subst r w'.
  rewrite (handler_on_event triggerData w event d E Hev), Hskip.
  split; [reflexivity | apply enriched_world_calls].
Qed.

Lemma handler_calls_witness :
  calls (snd (onCalendarUpdate trigger
                (calendar_of (an_event "Gym at 7 :gym: :x:" "bring :star:")))) =
  [SetTitle "e3"%string (u16 "Gym at 7 " ++ flexed_biceps ++ u16 " :x:");
   SetColor "e3"%string PALE_RED].
Proof.
  refine (eq_trans
            (proj2 (handler_calls trigger
                      (calendar_of
                         (an_event "Gym at 7 :gym: :x:" "bring :star:"))
                      "e3"%string
                      (an_event "Gym at 7 :gym: :x:" "bring :star:")
                      _ _ _)) _);
    vm_compute; reflexivity.
Defined.


(** X6: the handler touches no event but the resolved one: every other
    event of the calendar is after it as it was before. *)
Theorem handler_frame (triggerData : TriggerData) (w : World)
  (i : CalendarEvent) :
  fst (_getLastEditedEvent (calendarId triggerData) w) <> inr (Some i) ->
  events (snd (onCalendarUpdate triggerData w)) i = events w i.
Proof.
  intros Hi.
  destruct (resolver_outcome (calendarId triggerData) w)
    as [(m & Hl & H) | [(m & H) | [(a & its & last & _ & _ & _ & H)
       | (a & its & last & d & _ & _ & Hev & H)]]].
  - unfold onCalendarUpdate. rewrite H. reflexivity.
  - unfold onCalendarUpdate. rewrite H. reflexivity.
  - unfold onCalendarUpdate. rewrite H. reflexivity.
  - rewrite (handler_on_event triggerData w (id last) d H Hev). cbn [snd].
    destruct (includes (description d) skip_marker); [reflexivity|].
    apply enriched_world_others. intros ->. apply Hi. rewrite H. reflexivity.
Qed.

Lemma handler_frame_witness :
  events (snd (onCalendarUpdate trigger morning_run)) "e2"%string =
  Some (an_event "Lunch" EmptyString).
Proof.
  refine (eq_trans (handler_frame trigger morning_run "e2"%string _) _).
  - vm_compute. discriminate.
  - reflexivity.
Defined.


(** X8: on a resolved event without the skip marker, the event is after the
    handler the event it was with the new title, and with the colour of the
    category when it has one. *)
Theorem handler_event_after (triggerData : TriggerData) (w : World)
  (event : CalendarEvent) (d : EventData) :
  fst (_getLastEditedEvent (calendarId triggerData) w) = inr (Some event) ->
  events w event = Some d ->
  includes (description d) skip_marker = false ->
  events (snd (onCalendarUpdate triggerData w)) event =
  Some {| title := fst (enrich (title d));
          description := description d;
          color := match colorFor (snd (enrich (title d))) with
                   | Some c => Some c
                   | None => color d
                   end |}.
Proof.
  intros Hres Hev Hskip.
  pose proof (_getLastEditedEvent_reads (calendarId triggerData) w) as Hw.
  destruct (_getLastEditedEvent (calendarId triggerData) w) as [r w'] eqn:E.
  cbn [fst snd] in Hres, Hw. subst r w'.
  rewrite (handler_on_event triggerData w event d E Hev), Hskip.
  apply enriched_world_event; exact Hev.
Qed.

Lemma handler_event_after_witness :
  events (snd (onCalendarUpdate trigger morning_run)) "e3"%string =
  Some {| title := u16 "Morning " ++ man_running ++ u16 " " ++ check_mark;
          description := [];
          color := Some GRAY |}.
Proof.
  refine (eq_trans
            (handler_event_after trigger morning_run "e3"%string
               (an_event "Morning :run: :check:" EmptyString) _ _ _) _);
    vm_compute; reflexivity.
Defined.

(** ** Further properties: the scan, the table and the loop *)

(** A token that the table knows changes the title. *)
Lemma enrich_changed (title0 token : jsstring) (d : TagData) :
  In token (matchAll title0) -> lookup token = Some d ->
  fst (enrich title0) <> title0.
Proof.
  intros Hin Hl E. destruct (matchAll_In _ _ Hin) as [_ Hinc].
  pose proof (fold_removes (matchAll title0) token title0 None d Hin Hl) as H.
  fold (enrich title0) in H. rewrite E in H. congruence.
Qed.

Lemma leftmost_category_Some (tokens : list jsstring) (c : string) :
  leftmost_category tokens = Some c ->
  exists token d,
    In token tokens /\ lookup token = Some d /\ eventType d = Some c.
Proof.
  induction tokens as [|a tokens IH]; cbn [leftmost_category]; [discriminate|].
  destruct (lookup a) as [[em [c'|]]|] eqn:E.
  - intros [= ->]. exists a, {| emoji := em; eventType := Some c |}.
    repeat split; [left; reflexivity | exact E].
  - intros H. destruct (IH H) as (token & d & Hin & Hl & Hc).
    exists token, d. repeat split; auto. right; exact Hin.
  - intros H. destruct (IH H) as (token & d & Hin & Hl & Hc).
    exists token, d. repeat split; auto. right; exact Hin.
Qed.

Lemma enrich_category (title0 : jsstring) :
  snd (enrich title0) = leftmost_category (matchAll title0).
Proof.
  unfold enrich. rewrite fold_category by (left; reflexivity). reflexivity.
Qed.

(** X9: the new title is the title if and only if the scan finds no token
    that the table knows: one known token is enough to change it. *)
Theorem enrich_unchanged_iff (title0 : jsstring) :
  fst (enrich title0) = title0 <->
  forall token, In token (matchAll title0) -> lookup token = None.
Proof.
  split.
  - intros E token Hin. destruct (lookup token) as [d|] eqn:Hl; [|reflexivity].
    destruct (enrich_changed title0 token d Hin Hl E).
  - intros H. unfold enrich. rewrite (fold_unknown _ _ H). reflexivity.
Qed.

(** X10: when [_updateEventTitleAndGetType] returns an event type, it has
    called [setTitle]: an event is never coloured with its title left as it
    was. *)
Theorem typed_event_is_retitled (event : CalendarEvent) (w : World)
  (d : EventData) :
  events w event = Some d ->
  truthy (snd (enrich (title d))) = true ->
  _updateEventTitleAndGetType event w =
  (inr (snd (enrich (title d))),
   snd (setTitle event (fst (enrich (title d))) w)) /\
  calls (snd (_updateEventTitleAndGetType event w)) =
  calls w ++ [SetTitle event (fst (enrich (title d)))].
Proof.
  intros Hev Hty.
  assert (JS.eqb (fst (enrich (title d))) (title d) = false) as Hne.
  { apply eqb_neq. rewrite enrich_category in Hty.
    destruct (leftmost_category (matchAll (title d))) as [c|] eqn:Ec;
      [|discriminate].
    destruct (leftmost_category_Some _ _ Ec) as (token & d' & Hin & Hl & _).
    exact (enrich_changed (title d) token d' Hin Hl). }
  rewrite (_updateEventTitleAndGetType_cases event w d Hev), Hne.
  split; reflexivity.
Qed.

Lemma typed_event_is_retitled_witness :
  calls (snd (_updateEventTitleAndGetType "e3"%string
                (calendar_of (an_event ":bike: to work" EmptyString)))) =
  [SetTitle "e3"%string (man_biking ++ u16 " to work")].
Proof.
  refine (eq_trans
            (proj2 (typed_event_is_retitled "e3"%string
                      (calendar_of (an_event ":bike: to work" EmptyString))
                      (an_event ":bike: to work" EmptyString) _ _)) _);
    vm_compute; reflexivity.
Defined.

Lemma table_categories_coloured :
  forallb
    (fun kd : jsstring * TagData =>
       match eventType (snd kd) with
       | None => true
       | Some c =>
           existsb (String.eqb c) categories &&
           match colorFor (Some c) with Some _ => true | None => false end
       end) titleEnrichmentsAndTypes = true.
Proof. vm_compute. reflexivity. Qed.

(** X11: the event type that the loop returns is [null] or one of the six
    categories of the [switch], so every event that gets a type gets a
    colour. *)
Theorem enrich_category_coloured (title0 : jsstring) :
  snd (enrich title0) = None \/
  exists c col,
    snd (enrich title0) = Some c /\ In c categories /\
    colorFor (Some c) = Some col.
Proof.
  rewrite enrich_category.
  destruct (leftmost_category (matchAll title0)) as [c|] eqn:Ec;
    [right | left; reflexivity].
  destruct (leftmost_category_Some _ _ Ec) as (token & d & _ & Hl & Hc).
  pose proof (proj1 (forallb_forall _ _) table_categories_coloured _
                (lookup_in_In _ _ _ Hl)) as H.
  cbn [snd] in H. rewrite Hc in H. apply andb_true_iff in H.
  destruct H as [Hin Hcol]. apply existsb_exists in Hin.
  destruct Hin as (c' & Hin & Heq). apply String.eqb_eq in Heq; subst c'.
  destruct (colorFor (Some c)) as [col|] eqn:E; [|discriminate].
  exists c, col. auto.
Qed.

(** X12: every entry of the table is live: the title made of a key alone
    has that key as its only token, and comes back as the emoji and the
    event type of the entry. *)
Theorem table_entry_live (key : jsstring) (d : TagData) :
  lookup key = Some d ->
  matchAll key = [key] /\ enrich key = (emoji d, eventType d).
Proof.
  intros Hl. destruct (lookup_ok _ _ Hl) as [Ht _].
  assert (matchAll key = [key]) as Hm.
  { pose proof (matchAll_hit key [] Ht) as H.
    rewrite app_nil_r in H. exact H. }
  split; [exact Hm|]. unfold enrich. rewrite Hm. cbn [fold_left].
  rewrite (enrich_step_known _ _ _ _ Hl). cbn [truthy negb]. f_equal.
  pose proof (replaceAll_hit key [] (emoji d) (TagShape_not_nil key Ht)) as H.
  rewrite app_nil_r in H. rewrite H.
  rewrite (replaceAll_nil _ _ (TagShape_not_nil key Ht)). apply app_nil_r.
Qed.

Lemma table_entry_live_witness :
  enrich (u16 ":ita:") = (flag_italy, None).
Proof.
  exact (proj2 (table_entry_live (u16 ":ita:")
                  {| emoji := flag_italy; eventType := None |} eq_refl)).
Defined.

(** X13: the tokens of the scan are substrings of the tag syntax that occur
    in the title in the order of the scan, each after the end of the one
    before: no two of them overlap. *)
Theorem matchAll_in_order (title0 : jsstring) :
  InOrder (matchAll title0) title0 /\
  forall token, In token (matchAll title0) -> tagLike token = true.
Proof.
  split.
  - induction title0 as [s IH] using length_ind.
    destruct (matchAll_cases s)
      as [[-> ->]
         | [(t0 & rest & -> & _ & Hlen & ->) | (c & s' & -> & _ & ->)]].
    + constructor.
    + constructor. apply IH; exact Hlen.
    + constructor. apply IH. simpl; lia.
  - intros token Hin. apply tagLike_iff. exact (proj1 (matchAll_In _ _ Hin)).
Qed.

(** X14: the scan finds no token if and only if the title has no substring
    of the tag syntax. *)
Theorem matchAll_empty_iff (title0 : jsstring) :
  matchAll title0 = [] <-> noSubstring tagLike title0 = true.
Proof.
  split; [|apply noSubstring_tagLike].
  intros Hm. apply noSubstring_iff. intros u Hu.
  destruct (tagLike u) eqn:Hlike; [exfalso | reflexivity].
  apply tagLike_iff in Hlike. revert Hm Hu.
  induction title0 as [s IH] using length_ind. intros Hm Hu.
  apply includes_iff in Hu. destruct Hu as [pre [post E]].
  destruct (matchAll_cases s)
    as [[-> _]
       | [(t0 & rest & -> & _ & _ & H) | (c & s' & -> & Hnone & H)]].
  - destruct Hlike. destruct pre; discriminate.
  - congruence.
  - destruct pre as [|p pre].
    + cbn [app] in E. rewrite E, (matchAt_shape u post Hlike) in Hnone.
      discriminate.
    + injection E as _ E. apply (IH s'); [simpl; lia | congruence |].
      apply includes_iff. exists pre, post. exact E.
Qed.

(** X15: the loop writes no text of the tag syntax that the title did not
    have: a string of colons and class characters that does not occur in
    the title does not occur in the new title. *)
Theorem enrich_creates_no_tag (title0 x : jsstring) :
  tagText x = true ->
  includes title0 x = false ->
  includes (fst (enrich title0)) x = false.
Proof.
  intros Hx Hno. unfold enrich. apply fold_absent; assumption.
Qed.

Lemma enrich_creates_no_tag_witness :
  includes (u16 ":a:run:b:gym: :run:") (u16 "::") = false /\
  includes (fst (enrich (u16 ":a:run:b:gym: :run:"))) (u16 "::") = false.
Proof.
  split; [vm_compute; reflexivity|].
  apply (enrich_creates_no_tag (u16 ":a:run:b:gym: :run:") (u16 "::"));
    vm_compute; reflexivity.
Defined.

Lemma enrich_twice (title0 : jsstring) :
  NoShare title0 ->
  enrich (fst (enrich title0)) = (fst (enrich title0), None).
Proof.
  intros Hns. unfold enrich at 1. apply fold_unknown.
  intros token Hin. exact (second_scan_unknown title0 token Hns Hin).
Qed.

(** X16: where no two tokens of the title share a colon, the handler
    settles: run again on the calendar it has left (as the trigger of its
    own writes makes it), it resolves the same event and writes nothing. *)
Theorem handler_settles (triggerData : TriggerData) (w : World)
  (event : CalendarEvent) (d : EventData) :
  fst (_getLastEditedEvent (calendarId triggerData) w) = inr (Some event) ->
  events w event = Some d ->
  noSubstring doubleTag (title d) = true ->
  onCalendarUpdate triggerData (snd (onCalendarUpdate triggerData w)) =
  (inr tt, snd (onCalendarUpdate triggerData w)).
Proof.
  intros Hres Hev Hns. apply noSubstring_NoShare in Hns.
  destruct (resolver_outcome (calendarId triggerData) w)
    as [(m & _ & H) | [(m & H) | [(a & its & last & _ & _ & _ & H)
       | (a & its & last & d0 & Hl & Hi & Hev0 & H)]]];
    rewrite H in Hres; try discriminate.
  injection Hres as <-.
  assert (d0 = d) as -> by congruence.
  rewrite (handler_on_event triggerData w (id last) d H Hev). cbn [snd].
  destruct (includes (description d) skip_marker) eqn:Hskip.
  - rewrite (handler_on_event triggerData w (id last) d H Hev), Hskip.
    reflexivity.
  - pose proof (enriched_world_event (id last) d w Hev) as Hev1.
    destruct (enriched_world_service (id last) d w) as [Hc Hel].
    set (w1 := enriched_world (id last) d w) in *.
    assert (_getLastEditedEvent (calendarId triggerData) w1 =
            (inr (Some (id last)), w1)) as H1.
    { rewrite _getLastEditedEvent_cases, Hel, Hc, Hl, Hi, at_index_last.
      unfold getEventById. rewrite Hev1. reflexivity. }
    rewrite (handler_on_event triggerData w1 (id last) _ H1 Hev1).
    cbn [description]. rewrite Hskip. f_equal.
    unfold enriched_world at 1. cbn [title].
    rewrite (enrich_twice (title d) Hns). cbn [fst snd colorFor].
    rewrite eqb_refl. reflexivity.
Qed.

Lemma handler_settles_witness :
  calls (snd (onCalendarUpdate trigger
                (snd (onCalendarUpdate trigger morning_run)))) =
  calls (snd (onCalendarUpdate trigger morning_run)).
Proof.
  rewrite (handler_settles trigger morning_run "e3"%string
             (an_event "Morning :run: :check:" EmptyString));
    vm_compute; reflexivity.
Defined.

Lemma table_emoji_short :
  forallb
    (fun kd : jsstring * TagData =>
       Nat.leb (List.length (emoji (snd kd))) (List.length (fst kd)))
    titleEnrichmentsAndTypes = true.
Proof. vm_compute. reflexivity. Qed.

Lemma replaceAll_length (s t e : jsstring) :
  t <> [] -> List.length e <= List.length t ->
  List.length (replaceAll s t e) <= List.length s.
Proof.
  intros Hne Hle. induction s as [s IH] using length_ind.
  destruct s as [|c s]; [rewrite replaceAll_nil by exact Hne; auto|].
  destruct (startsWith (c :: s) t) eqn:Hit.
  - apply startsWith_iff in Hit. destruct Hit as [rest Hr]. rewrite Hr.
    rewrite replaceAll_hit by exact Hne. rewrite !length_app.
    assert (List.length rest < List.length (c :: s)) as Hlen.
    { rewrite Hr, length_app. destruct t; [congruence | simpl; lia]. }
    pose proof (IH rest Hlen). lia.
  - rewrite replaceAll_miss by exact Hit. cbn [List.length].
    pose proof (IH s (Nat.lt_succ_diag_r _)). lia.
Qed.

(** X17: no emoji of the table has more code units than its key, so the new
    title is never longer than the title. *)
Theorem enrich_not_longer (title0 : jsstring) :
  List.length (fst (enrich title0)) <= List.length title0.
Proof.
  unfold enrich. generalize (@None string).
  assert (forall tokens s ty,
            List.length (fst (fold_left enrich_step tokens (s, ty))) <=
            List.length s) as H; [|intros ty; apply H].
  induction tokens as [|a tokens IH]; intros s ty; [auto|].
  cbn [fold_left]. destruct (lookup a) as [d|] eqn:E.
  - rewrite (enrich_step_known _ _ _ _ E).
    destruct (lookup_ok _ _ E) as [Ht _].
    pose proof (proj1 (forallb_forall _ _) table_emoji_short _
                  (lookup_in_In _ _ _ E)) as Hshort.
    cbn [fst snd] in Hshort. apply Nat.leb_le in Hshort.
    pose proof (replaceAll_length s a (emoji d) (TagShape_not_nil a Ht)
                  Hshort).
    specialize (IH (replaceAll s a (emoji d))
                  (if negb (truthy ty) then eventType d else ty)). lia.
  - rewrite enrich_step_unknown by exact E. apply IH.
Qed.

(** An occurrence of a token that starts after the start of a token at the
    head, in a title where no two tokens share a colon, lies after the end
    of that token. *)
Lemma occurrence_after_token (t0 rest p pre u post : jsstring) :
  TagShape t0 -> TagShape u -> NoShare (t0 ++ rest) ->
  t0 ++ rest = (p ++ pre) ++ u ++ post -> p <> [] ->
  includes rest u = true.
Proof.
  intros Ht0 Hu Hns E Hp. destruct p as [|c p]; [congruence|]. clear Hp.
  destruct Ht0 as [run Hne Hrun]. pose proof Hu as Hu'.
  destruct Hu' as [run2 Hne2 Hrun2].
  cbn [app] in E. injection E as <- E. rewrite <- !app_assoc in E.
  cbn [app] in E.
  destruct (run_split run (colon :: rest) (p ++ pre) (run2 ++ [colon]) post
              Hrun) as [pre' [Hpre E']].
  { rewrite E. cbn [app]. rewrite <- !app_assoc. reflexivity. }
  destruct pre' as [|q pre'].
  - exfalso. cbn [app] in E'. injection E' as E'.
    assert (doubleTag (colon :: run ++ colon :: run2 ++ [colon]) = true)
      as Hd by (apply doubleTag_shape; auto; constructor; auto).
    rewrite Hns in Hd; [discriminate|].
    apply startsWith_includes, startsWith_iff. exists post.
    cbn [app]. rewrite <- !app_assoc. cbn [app]. rewrite E'.
    rewrite <- !app_assoc. reflexivity.
  - cbn [app] in E'. injection E' as _ E'.
    apply includes_iff. exists pre', post. exact E'.
Qed.

(** Where no two tokens share a colon, a token of the title is found in the
    substituted title as it was when the table does not know it, and as its
    emoji when it does. *)
Lemma substitute_token (s u : jsstring) :
  NoShare s -> TagShape u -> includes s u = true ->
  includes (substitute s)
    (match lookup u with Some d => emoji d | None => u end) = true.
Proof.
  intros Hns Hu. induction s as [s IH] using length_ind. intros Hin.
  apply includes_iff in Hin. destruct Hin as [pre [post E]].
  unfold substitute in *.
  destruct (substitute_cases (fun _ => true) s)
    as [[-> _]
       | [(k & d & rest & -> & Hk & Hlen & ->) | (c & s' & -> & Hk & Hsub)]].
  - destruct Hu. destruct pre; discriminate.
  - destruct (keyAt_Some _ _ _ _ Hk) as [Hlk _].
    destruct (lookup_ok _ _ Hlk) as [Htk _].
    destruct pre as [|p pre].
    + assert (k = u) as <- by exact (TagShape_prefix_unique _ _ _ _ Htk Hu E).
      rewrite Hlk. apply startsWith_includes, startsWith_app.
    + apply includes_app_r, IH; [exact Hlen | exact (NoShare_suffix _ _ Hns) |].
      apply (occurrence_after_token k rest [p] pre u post); auto.
      discriminate.
  - destruct pre as [|p pre].
    + cbn [app] in E. rewrite E in Hk, Hns |- *.
      assert (lookup u = None) as ->.
      { destruct (lookup u) as [d|] eqn:Hl; [|reflexivity].
        rewrite (keyAt_the (fun _ => true) (u ++ post) u d Hl eq_refl
                   (startsWith_app u post)) in Hk. discriminate. }
      rewrite (substitute_copy _ u post Hu Hns Hk).
      apply startsWith_includes, startsWith_app.
    + injection E as _ E. rewrite Hsub.
      change (c :: substitute_with (fun _ => true) s')
        with ([c] ++ substitute_with (fun _ => true) s').
      apply includes_app_r, IH;
        [simpl; lia | exact (NoShare_suffix [c] s' Hns) |].
      apply includes_iff. exists pre, post. exact E.
Qed.

(** X18: where no two tokens of the title share a colon, a token of the
    scan that the table does not know is left in the new title as it is. *)
Theorem unknown_token_kept (title0 token : jsstring) :
  noSubstring doubleTag title0 = true ->
  In token (matchAll title0) ->
  lookup token = None ->
  includes (fst (enrich title0)) token = true.
Proof.
  intros Hns Hin Hl. apply noSubstring_NoShare in Hns.
  destruct (matchAll_In _ _ Hin) as [Ht Hinc].
  rewrite (enrich_substitute title0 Hns).
  pose proof (substitute_token title0 token Hns Ht Hinc) as H.
  rewrite Hl in H. exact H.
Qed.

Lemma unknown_token_kept_witness :
  includes (fst (enrich (u16 "Call :mom: after :lunch:"))) (u16 ":mom:") = true.
Proof.
  apply (unknown_token_kept (u16 "Call :mom: after :lunch:") (u16 ":mom:"));
    vm_compute; auto.
Defined.

(** X19: where no two tokens of the title share a colon, the emoji of every
    key of the table that the title contains is in the new title. *)
Theorem known_tag_emoji_written (title0 tag : jsstring) (d : TagData) :
  noSubstring doubleTag title0 = true ->
  lookup tag = Some d ->
  includes title0 tag = true ->
  includes (fst (enrich title0)) (emoji d) = true.
Proof.
  intros Hns Hl Hinc. apply noSubstring_NoShare in Hns.
  destruct (lookup_ok _ _ Hl) as [Ht _].
  rewrite (enrich_substitute title0 Hns).
  pose proof (substitute_token title0 tag Hns Ht Hinc) as H.
  rewrite Hl in H. exact H.
Qed.

Lemma known_tag_emoji_written_witness :
  includes (fst (enrich (u16 "Call :mom: after :lunch:"))) poultry_leg = true.
Proof.
  apply (known_tag_emoji_written (u16 "Call :mom: after :lunch:")
           (u16 ":lunch:")
           {| emoji := poultry_leg; eventType := Some "DINNER"%string |});
    vm_compute; reflexivity.
Defined.
